(** * TranslationService: fallback orchestration, event log and backup dictionary

    A shallow embedding of the [TranslationService] class of [script.js]
    and the properties of its translation fallback policy.

    JavaScript strings are sequences of UTF-16 code units; they are modelled
    as lists of integers.  The object's fields ([services], [failedServices],
    [logs]) are a record that is threaded through a small state-and-exception
    monad; the environment the class talks to (the clock, the remote
    providers, the UI hook [window.updateTranslationLogs]) is the [World]. *)

From Stdlib Require Import List ZArith Bool Lia Ascii String Permutation Sorted.
From Stdlib Require Import Numbers.DecimalString.
Import ListNotations.

Local Open Scope Z_scope.

(** ** JavaScript strings *)

(** A string value: its UTF-16 code units, each in [0, 65535]. *)
Definition jsstring := list Z.

Module Utf8.

(** Code units of one code point: a surrogate pair above the BMP. *)
Definition units (cp : Z) : jsstring :=
  if cp <? 65536 then [cp]
  else [55296 + Z.shiftr (cp - 65536) 10; 56320 + Z.land (cp - 65536) 1023].

Definition cont (b : Z) : Z := Z.land b 63.

(** Decoding of the bytes of a source literal (the file is UTF-8). *)
Fixpoint decode (bs : list Z) : jsstring :=
  match bs with
  | [] => []
  | b0 :: r0 =>
    if b0 <? 128 then b0 :: decode r0
    else if b0 <? 224 then
      match r0 with
      | b1 :: r1 => units (Z.shiftl (Z.land b0 31) 6 + cont b1) ++ decode r1
      | [] => [65533]
      end
    else if b0 <? 240 then
      match r0 with
      | b1 :: b2 :: r2 =>
        units (Z.shiftl (Z.land b0 15) 12 + Z.shiftl (cont b1) 6 + cont b2)
          ++ decode r2
      | _ => [65533]
      end
    else
      match r0 with
      | b1 :: b2 :: b3 :: r3 =>
        units (Z.shiftl (Z.land b0 7) 18 + Z.shiftl (cont b1) 12
               + Z.shiftl (cont b2) 6 + cont b3) ++ decode r3
      | _ => [65533]
      end
  end.

Definition bytes (s : string) : list Z :=
  map (fun a => Z.of_N (N_of_ascii a)) (list_ascii_of_string s).

End Utf8.

(** A string literal of the source, as the JavaScript value it denotes. *)
Definition js (s : string) : jsstring := Utf8.decode (Utf8.bytes s).

Definition jsstring_eqb (a b : jsstring) : bool :=
  if list_eq_dec Z.eq_dec a b then true else false.

Lemma jsstring_eqb_eq a b : jsstring_eqb a b = true <-> a = b.
Proof.
  unfold jsstring_eqb. destruct (list_eq_dec Z.eq_dec a b); split; congruence.
Qed.

(** [xs.length] of an array, and [s.length] of a string. *)
Definition array_length {A} (xs : list A) : Z := Z.of_nat (List.length xs).
Definition js_length (s : jsstring) : Z := array_length s.

(** [s.substring(0, n)] for a literal non-negative [n]. *)
Definition substring0 (n : nat) (s : jsstring) : jsstring := firstn n s.

(** [s.startsWith(p)] at the current position, used by [includes]. *)
Fixpoint starts_with (p s : jsstring) : bool :=
  match p, s with
  | [], _ => true
  | _ :: _, [] => false
  | a :: p', b :: s' => (a =? b) && starts_with p' s'
  end.

(** [s.includes(p)] *)
Fixpoint includes (s p : jsstring) : bool :=
  starts_with p s ||
  match s with
  | [] => false
  | _ :: s' => includes s' p
  end.

(** [xs.join(sep)] for an array of strings. *)
Fixpoint join (sep : jsstring) (xs : list jsstring) : jsstring :=
  match xs with
  | [] => []
  | [x] => x
  | x :: rest => x ++ sep ++ join sep rest
  end.

(** Number-to-string conversion of an integer, as a template literal does. *)
Definition number_to_string (n : Z) : jsstring :=
  Utf8.bytes (NilEmpty.string_of_int (Z.to_int n)).

(** The code units [String.prototype.trim] strips: WhiteSpace and
    LineTerminator of the language specification. *)
Definition isWhiteSpace (c : Z) : bool :=
  (c =? 9) || (c =? 10) || (c =? 11) || (c =? 12) || (c =? 13) || (c =? 32)
  || (c =? 160) || (c =? 5760) || ((8192 <=? c) && (c <=? 8202))
  || (c =? 8232) || (c =? 8233) || (c =? 8239) || (c =? 8287)
  || (c =? 12288) || (c =? 65279).

Fixpoint trimStart (s : jsstring) : jsstring :=
  match s with
  | [] => []
  | c :: s' => if isWhiteSpace c then trimStart s' else s
  end.

Definition trimEnd (s : jsstring) : jsstring := rev (trimStart (rev s)).

(** [s.trim()] *)
Definition trim (s : jsstring) : jsstring := trimEnd (trimStart s).

(** [!s] for a string [s]: only the empty string is falsy. *)
Definition falsy (s : jsstring) : bool :=
  match s with [] => true | _ => false end.

(** ** Regular expressions of the form [\bword\b] with flags [gi] *)

Module RegExp.

(** The class [\w] without the unicode flag: [A-Za-z0-9_]. *)
Definition isWordChar (c : Z) : bool :=
  ((97 <=? c) && (c <=? 122)) || ((65 <=? c) && (c <=? 90))
  || ((48 <=? c) && (c <=? 57)) || (c =? 95).

(** [IsWordChar(e)]: false at either end of the input. *)
Definition isWordAt (c : option Z) : bool :=
  match c with
  | Some c => isWordChar c
  | None => false
  end.

(** The assertion [\b] between a character and its successor. *)
Definition boundary (before after : option Z) : bool :=
  xorb (isWordAt before) (isWordAt after).

(** [Canonicalize] for the flag [i] without [u]: the upper case of the code
    unit.  A code unit of 128 or more is never mapped below 128, so for the
    comparison with the ASCII letters of a pattern only the ASCII letters
    need their upper case; the others are left as they are. *)
Definition canonicalize (c : Z) : Z :=
  if (97 <=? c) && (c <=? 122) then c - 32 else c.

(** The literal characters of the pattern matched against the input;
    returns the last character consumed and the rest of the input. *)
Fixpoint match_chars (word : jsstring) (prev : option Z) (s : jsstring)
  : option (option Z * jsstring) :=
  match word with
  | [] => Some (prev, s)
  | p :: word' =>
    match s with
    | [] => None
    | c :: s' =>
      if canonicalize p =? canonicalize c
      then match_chars word' (Some c) s'
      else None
    end
  end.

(** Does [\bword\b] match at the start of [s], the character before being
    [prev]? *)
Definition match_here (word : jsstring) (prev : option Z) (s : jsstring) : bool :=
  boundary prev (hd_error s) &&
  match match_chars word prev s with
  | Some (last, rest) => boundary last (hd_error rest)
  | None => false
  end.

(** [s.replace(/\bword\b/gi, value)] scanning left to right: at a match the
    replacement is emitted and the matched characters are skipped ([skip]
    counts those still to pass), elsewhere the character is copied.  [word]
    is a non-empty run of letters and [value] has no [$] pattern, as in every
    entry of the dictionary below. *)
Fixpoint replace_scan (word value : jsstring) (prev : option Z) (skip : nat)
         (s : jsstring) : jsstring :=
  match s with
  | [] => []
  | c :: s' =>
    match skip with
    | S k => replace_scan word value (Some c) k s'
    | O =>
      if match_here word prev s
      then value ++ replace_scan word value (Some c) (List.length word - 1)%nat s'
      else c :: replace_scan word value (Some c) 0 s'
    end
  end.

Definition replace (word value : jsstring) (s : jsstring) : jsstring :=
  replace_scan word value None 0 s.

End RegExp.

(** ** The backup dictionary *)

Local Open Scope string_scope.

(** [backupDict] of [useBackupTranslation], in the order of its keys. *)
Definition backupDict : list (jsstring * jsstring) :=
  map (fun kv => (js (fst kv), js (snd kv)))
  [ ("hello", "привіт"); ("world", "світ"); ("how", "як"); ("are", "є");
    ("you", "ти"); ("what", "що"); ("where", "де"); ("when", "коли");
    ("why", "чому"); ("who", "хто"); ("which", "який"); ("good", "добре");
    ("morning", "ранок"); ("afternoon", "день"); ("evening", "вечір");
    ("night", "ніч"); ("thank", "дякую"); ("please", "будь ласка");
    ("yes", "так"); ("no", "ні"); ("sorry", "вибачте"); ("help", "допомога");
    ("name", "ім'я"); ("my", "мій"); ("is", "є"); ("your", "твій");
    ("his", "його"); ("her", "її"); ("our", "наш"); ("their", "їхній");
    ("and", "і"); ("but", "але"); ("or", "або"); ("because", "тому що");
    ("if", "якщо"); ("then", "тоді"); ("very", "дуже"); ("too", "теж");
    ("also", "також"); ("only", "тільки") ].

Local Close Scope string_scope.

(** The [forEach] over [Object.keys(backupDict)]: one global replacement per
    key, each applied to the result of the one before. *)
Definition substitute (dict : list (jsstring * jsstring)) (text : jsstring) : jsstring :=
  fold_left (fun translated kv => RegExp.replace (fst kv) (snd kv) translated)
            dict text.

(** The prefix of every backup translation. *)
Definition backupMarker : jsstring := js "[Резервний переклад] ".

(** ** The data model *)

(** The values are typed as the class uses them: a text handed to
    [translateText] is a string, a priority an integer, the result of an
    adapter an object with the three properties below, the value an adapter
    throws an [Error] with a string message.  An adapter call that never
    settles is outside the model. *)

(** The [text] of a result: a string, or no text at all, which is what the
    adapter of MyMemory returns when the answer of the remote service has no
    [translatedText] or has [null] there. *)
Inductive Text :=
| Str (s : jsstring)
| Undefined
| Null.

Module Result.
(** What [translateText] and the adapters return.  The early return for an
    empty text has no [service] property. *)
Record t := { success : bool; text : Text; service : option jsstring }.
End Result.

(** The message of the [TypeError] thrown when a property of [undefined] or
    [null] is read, as V8 words it. *)
Definition cannotRead (v : Text) (key : jsstring) : jsstring :=
  js "Cannot read properties of "
  ++ match v with Null => js "null" | _ => js "undefined" end
  ++ js " (reading '" ++ key ++ js "')".

(** How a call of an adapter settles: its promise is fulfilled with a result,
    or rejected with an [Error] carrying a message. *)
Inductive Outcome :=
| Fulfilled (result : Result.t)
| Rejected (message : jsstring).

(** An adapter: the arguments [text], [sourceLang], [targetLang], and the
    moment of the call, on which the answer of the remote service depends. *)
Definition Translator := jsstring -> jsstring -> jsstring -> nat -> Outcome.

(** An element of [this.services]. *)
Record Service := {
  name : jsstring;
  translator : Translator;
  priority : Z;
  enabled : bool;
  url : jsstring
}.

Inductive Level := INFO | WARN | ERROR | SUCCESS.

(** The [details] argument of [log], one constructor per object literal passed
    in the class, [NoDetails] for the default [null]. *)
Inductive Details :=
| NoDetails
| RequestDetails (sourceLang targetLang : jsstring) (textLength : Z)
| AvailableDetails (total : Z) (failed : list jsstring)
| SuccessDetails (duration : jsstring) (textLength : Z)
| ErrorDetails (error : jsstring)
| FailedDetails (failedServices : list jsstring).

Module Entry.
(** A log entry.  [timestamp] is the time value of the [Date] whose ISO
    string the entry keeps. *)
Record t := {
  timestamp : Z;
  level : Level;
  service : option jsstring;
  message : jsstring;
  details : Details
}.
End Entry.

(** A [Set] of strings: membership, and the insertion order that
    [Array.from] shows. *)
Module StringSet.
Definition t := list jsstring.
Definition has (s : t) (x : jsstring) : bool := existsb (jsstring_eqb x) s.
Definition add (s : t) (x : jsstring) : t := if has s x then s else s ++ [x].
Definition delete (s : t) (x : jsstring) : t :=
  filter (fun y => negb (jsstring_eqb x y)) s.
Definition clear (s : t) : t := [].
Definition to_array (s : t) : list jsstring := s.
End StringSet.

(** The fields of a [TranslationService] object. *)
Record TranslationService := {
  services : list Service;
  failedServices : StringSet.t;
  logs : list Entry.t;
  maxLogSize : Z
}.

(** The environment: [tick] counts the observations made of it so far,
    [clock] is what [Date.now()] answers at each of them, [rendered] the
    entries handed to [window.updateTranslationLogs], [invoked] the adapters
    called, by service name, with how each call settled. *)
Record World := {
  tick : nat;
  clock : nat -> Z;
  rendered : list Entry.t;
  invoked : list (jsstring * Outcome)
}.

Record Machine := { this : TranslationService; world : World }.

(** ** Statements: state, exceptions *)

Inductive Completion (A : Type) :=
| Normal (value : A)
| Throw (message : jsstring).
Arguments Normal {A} value.
Arguments Throw {A} message.

Definition M (A : Type) := Machine -> Completion A * Machine.

Definition ret {A} (a : A) : M A := fun m => (Normal a, m).

Definition bind {A B} (c : M A) (k : A -> M B) : M B :=
  fun m =>
    match c m with
    | (Normal a, m') => k a m'
    | (Throw e, m') => (Throw e, m')
    end.

Notation "x <- c ;; k" := (bind c (fun x => k))
  (at level 61, c at next level, right associativity).
Notation "c ;; k" := (bind c (fun _ => k))
  (at level 61, right associativity).

(** [try { body } catch (error) { handler }] *)
Definition try_catch {A} (body : M A) (handler : jsstring -> M A) : M A :=
  fun m =>
    match body m with
    | (Normal a, m') => (Normal a, m')
    | (Throw e, m') => handler e m'
    end.

Definition get {A} (field : TranslationService -> A) : M A :=
  fun m => (Normal (field (this m)), m).

Definition set_this (f : TranslationService -> TranslationService) : M unit :=
  fun m => (Normal tt, {| this := f (this m); world := world m |}).

Definition set_world (f : World -> World) : M unit :=
  fun m => (Normal tt, {| this := this m; world := f (world m) |}).

Definition with_logs (f : list Entry.t -> list Entry.t) (o : TranslationService) :=
  {| services := services o; failedServices := failedServices o;
     logs := f (logs o); maxLogSize := maxLogSize o |}.

Definition with_failedServices (f : StringSet.t -> StringSet.t) (o : TranslationService) :=
  {| services := services o; failedServices := f (failedServices o);
     logs := logs o; maxLogSize := maxLogSize o |}.

Definition advance (w : World) : World :=
  {| tick := S (tick w); clock := clock w; rendered := rendered w;
     invoked := invoked w |}.

(** [Date.now()], and the time value of [new Date()]. *)
Definition Date_now : M Z :=
  fun m => (Normal (clock (world m) (tick (world m))),
            {| this := this m; world := advance (world m) |}).

(** [for (const x of xs) { body }] where the body may [return] a value:
    [Some v] is that return, [None] the end of the iteration. *)
Fixpoint for_of {A R} (xs : list A) (body : A -> M (option R)) : M (option R) :=
  match xs with
  | [] => ret None
  | x :: rest =>
    r <- body x ;;
    match r with
    | Some v => ret (Some v)
    | None => for_of rest body
    end
  end.

(** [Array.prototype.sort(compare)]: the sort is stable, an element goes after
    another only when [compare] is positive. *)
Fixpoint sort_insert {A} (compare : A -> A -> Z) (x : A) (l : list A) : list A :=
  match l with
  | [] => [x]
  | y :: rest =>
    if 0 <? compare x y then y :: sort_insert compare x rest else x :: l
  end.

Definition sort {A} (compare : A -> A -> Z) (l : list A) : list A :=
  fold_right (sort_insert compare) [] l.

(** ** The class *)

(** [updateLogsUI]: the hook is defined by the page before any call. *)
Definition updateLogsUI (logEntry : Entry.t) : M unit :=
  set_world (fun w =>
    {| tick := tick w; clock := clock w;
       rendered := rendered w ++ [logEntry]; invoked := invoked w |}).

(** [log(level, message, service = null, details = null)] *)
Definition log (level : Level) (message : jsstring) (service : option jsstring)
           (details : Details) : M unit :=
  now <- Date_now ;;
  let logEntry := {| Entry.timestamp := now; Entry.level := level;
                     Entry.service := service; Entry.message := message;
                     Entry.details := details |} in
  set_this (with_logs (fun l => l ++ [logEntry])) ;;
  l <- get logs ;;
  size <- get maxLogSize ;;
  (if size <? array_length l
   then set_this (with_logs (@tl Entry.t))
   else ret tt) ;;
  updateLogsUI logEntry.

(** [useBackupTranslation(text)] *)
Definition useBackupTranslation (text : jsstring) : M Result.t :=
  log WARN (js "Використання резервного перекладу") (Some (js "Backup")) NoDetails ;;
  let translated := substitute backupDict text in
  ret {| Result.success := true;
         Result.text := Str (backupMarker ++ translated);
         Result.service := Some (js "BackupDictionary") |}.

(** [await service.translator(text, sourceLang, targetLang)]: a rejected
    promise is thrown at the [await]. *)
Definition await_translator (service : Service)
           (text sourceLang targetLang : jsstring) : M Result.t :=
  fun m =>
    let w := world m in
    let outcome := translator service text sourceLang targetLang (tick w) in
    let m' := {| this := this m;
                 world := {| tick := S (tick w); clock := clock w;
                             rendered := rendered w;
                             invoked := invoked w ++ [(name service, outcome)] |} |} in
    match outcome with
    | Fulfilled result => (Normal result, m')
    | Rejected message => (Throw message, m')
    end.

(** [value.length]: the number of code units of a string; reading it from
    [undefined] or [null] throws a [TypeError]. *)
Definition get_length (value : Text) : M Z :=
  fun m =>
    match value with
    | Str s => (Normal (js_length s), m)
    | _ => (Throw (cannotRead value (js "length")), m)
    end.

(** The filter and sort that give [availableServices]. *)
Definition availableServices (o : TranslationService) : list Service :=
  sort (fun a b => priority a - priority b)
       (filter (fun service =>
                  enabled service && negb (StringSet.has (failedServices o) (name service)))
               (services o)).

(** The body of the loop over [availableServices]. *)
Definition attempt (text sourceLang targetLang : jsstring) (service : Service)
  : M (option Result.t) :=
  try_catch
    (log INFO (js "Спроба перекладу через " ++ name service) (Some (name service)) NoDetails ;;
     startTime <- Date_now ;;
     result <- await_translator service text sourceLang targetLang ;;
     now <- Date_now ;;
     let duration := now - startTime in
     if Result.success result then
       textLength <- get_length (Result.text result) ;;
       log SUCCESS (js "Переклад успішний через " ++ name service) (Some (name service))
           (SuccessDetails (number_to_string duration ++ js "ms") textLength) ;;
       set_this (with_failedServices (fun s => StringSet.delete s (name service))) ;;
       ret (Some result)
     else ret None)
    (fun error =>
       log ERROR (js "Помилка перекладу через " ++ name service) (Some (name service))
           (ErrorDetails error) ;;
       (if includes error (js "429") || includes error (js "limit") then
          set_this (with_failedServices (fun s => StringSet.add s (name service))) ;;
          log WARN (js "Ліміт сервісу " ++ name service ++ js " перевищено")
              (Some (name service)) NoDetails
        else ret tt) ;;
       ret None).

(** [translateText(text, sourceLang, targetLang)] *)
Definition translateText (text sourceLang targetLang : jsstring) : M Result.t :=
  if falsy (trim text) then
    log WARN (js "Спроба перекладу пустого тексту") None NoDetails ;;
    ret {| Result.success := false; Result.text := Str []; Result.service := None |}
  else
    log INFO (js "Початок перекладу: " ++ [34] ++ substring0 50 text ++ js "..." ++ [34])
        None (RequestDetails sourceLang targetLang (js_length text)) ;;
    available <- get availableServices ;;
    failed <- get failedServices ;;
    log INFO (js "Доступні сервіси: " ++ join (js ", ") (map name available)) None
        (AvailableDetails (array_length available) (StringSet.to_array failed)) ;;
    if array_length available =? 0 then
      log ERROR (js "Немає доступних сервісів перекладу") None NoDetails ;;
      useBackupTranslation text
    else
      returned <- for_of available (attempt text sourceLang targetLang) ;;
      match returned with
      | Some result => ret result
      | None =>
        failed <- get failedServices ;;
        log ERROR (js "Усі сервіси перекладу не спрацювали") None
            (FailedDetails (StringSet.to_array failed)) ;;
        useBackupTranslation text
      end.

(** [resetFailedServices()] *)
Definition resetFailedServices : M unit :=
  set_this (with_failedServices StringSet.clear) ;;
  log INFO (js "Скинуто список невдалих сервісів") None NoDetails.

Module Status.
Record t := { name : jsstring; enabled : bool; failed : bool; priority : Z }.
End Status.

(** [getServiceStatus()] *)
Definition getServiceStatus (o : TranslationService) : list Status.t :=
  map (fun service =>
         {| Status.name := name service; Status.enabled := enabled service;
            Status.failed := StringSet.has (failedServices o) (name service);
            Status.priority := priority service |})
      (services o).

(** The constructor, given the four adapter methods it binds: their bodies
    are the HTTP exchanges with the remote services. *)
Definition constructor
           (translateMyMemory translateLibreTranslate translateApertium
            translateGoogleAPI : Translator) : TranslationService :=
  {| services :=
       [ {| name := js "MyMemory"; translator := translateMyMemory;
            priority := 0; enabled := true;
            url := js "https://api.mymemory.translated.net/get" |};
         {| name := js "LibreTranslate"; translator := translateLibreTranslate;
            priority := 1; enabled := true;
            url := js "https://libretranslate.com/translate" |};
         {| name := js "Apertium"; translator := translateApertium;
            priority := 2; enabled := true;
            url := js "https://apertium.org/apy/translate" |};
         {| name := js "GoogleTranslate"; translator := translateGoogleAPI;
            priority := 3; enabled := true;
            url := js "https://translate.googleapis.com" |} ];
     failedServices := [];
     logs := [];
     maxLogSize := 1000 |}.

(** ** Whole words *)

(** The substitution word by word, to be compared with [substitute]: the
    text is cut into its maximal runs of the word characters of the regular
    expression, which are ASCII letters, digits and the underscore, and the
    characters between them; each such word is looked up in the dictionary
    without regard to case.  A letter outside ASCII ends a word. *)
Inductive Token :=
| Word (w : jsstring)
| Other (c : Z).

Fixpoint tokens (s : jsstring) : list Token :=
  match s with
  | [] => []
  | c :: s' =>
    if RegExp.isWordChar c then
      match tokens s' with
      | Word w :: rest => Word (c :: w) :: rest
      | rest => Word [c] :: rest
      end
    else Other c :: tokens s'
  end.

Definition token_text (t : Token) : jsstring :=
  match t with
  | Word w => w
  | Other c => [c]
  end.

Definition untokens (ts : list Token) : jsstring := flat_map token_text ts.

(** Lower case of an ASCII letter. *)
Definition lower (c : Z) : Z :=
  if (65 <=? c) && (c <=? 90) then c + 32 else c.

(** The value of the first key equal to the word, case ignored. *)
Definition lookup (dict : list (jsstring * jsstring)) (w : jsstring) : option jsstring :=
  option_map snd (find (fun kv => jsstring_eqb (map lower w) (fst kv)) dict).

Definition translate_token (dict : list (jsstring * jsstring)) (t : Token) : jsstring :=
  match t with
  | Word w =>
    match lookup dict w with
    | Some value => value
    | None => w
    end
  | Other c => [c]
  end.

(** Every whole word that is a key replaced by its value, the rest kept. *)
Definition whole_word_substitution (dict : list (jsstring * jsstring))
           (text : jsstring) : jsstring :=
  flat_map (translate_token dict) (tokens text).

(** The words of a text, cut as the regular expression cuts them, that are
    keys of the dictionary. *)
Definition key_words (dict : list (jsstring * jsstring)) (text : jsstring)
  : list jsstring :=
  flat_map (fun t => match t with
                     | Word w => match lookup dict w with
                                 | Some _ => [w]
                                 | None => []
                                 end
                     | Other _ => []
                     end)
           (tokens text).

(** Replacement of one key, word by word: a word equal to the key becomes
    the characters of the value. *)
Definition subst_token (word value : jsstring) (t : Token) : list Token :=
  match t with
  | Word w => if jsstring_eqb (map lower w) word then map Other value else [Word w]
  | Other c => [Other c]
  end.

Definition isLowerLetter (c : Z) : bool := (97 <=? c) && (c <=? 122).

(** What the word-by-word reading needs of a dictionary: the keys are
    non-empty runs of lower-case letters, the values have no word character
    and no [$]. *)
Definition plain_entry (kv : jsstring * jsstring) : bool :=
  negb (falsy (fst kv)) && forallb isLowerLetter (fst kv)
  && forallb (fun c => negb (RegExp.isWordChar c) && negb (c =? 36)) (snd kv).

Definition starts_with_word (ts : list Token) : bool :=
  match ts with
  | Word _ :: _ => true
  | _ => false
  end.

(** Well-formed token lists: words are non-empty runs of word characters
    and never adjacent, the other tokens are not word characters. *)
Fixpoint wf (ts : list Token) : Prop :=
  match ts with
  | [] => True
  | Other c :: rest => RegExp.isWordChar c = false /\ wf rest
  | Word w :: rest =>
    w <> [] /\ forallb RegExp.isWordChar w = true
    /\ starts_with_word rest = false /\ wf rest
  end.

(** ** Whole words, as the specification words them *)

(** The specification asks that a match be not part of a longer token.  Its
    tokens are read here as the words of a text in any alphabet: maximal runs
    of letters, digits and underscores, where the letters are the Latin ones
    with their accented forms (U+00C0 to U+024F but the two signs of
    multiplication and division) and the Cyrillic ones (U+0400 to U+052F but
    the thousands sign and the combining marks after it), besides the ASCII
    ones.  To be compared with [tokens], [whole_word_substitution] and
    [key_words], which cut the text as the regular expression does. *)
Module Spec.

Definition isLetter (c : Z) : bool :=
  ((97 <=? c) && (c <=? 122)) || ((65 <=? c) && (c <=? 90))
  || ((192 <=? c) && (c <=? 591) && negb (c =? 215) && negb (c =? 247))
  || ((1024 <=? c) && (c <=? 1327) && negb ((1154 <=? c) && (c <=? 1161))).

Definition isTokenChar (c : Z) : bool :=
  isLetter c || ((48 <=? c) && (c <=? 57)) || (c =? 95).

Fixpoint tokens (s : jsstring) : list Token :=
  match s with
  | [] => []
  | c :: s' =>
    if isTokenChar c then
      match tokens s' with
      | Word w :: rest => Word (c :: w) :: rest
      | rest => Word [c] :: rest
      end
    else Other c :: tokens s'
  end.

(** Every token that is a key replaced by its value, the rest kept. *)
Definition substitution (dict : list (jsstring * jsstring)) (text : jsstring)
  : jsstring :=
  flat_map (translate_token dict) (tokens text).

(** The tokens of a text that are keys of the dictionary. *)
Definition key_words (dict : list (jsstring * jsstring)) (text : jsstring)
  : list jsstring :=
  flat_map (fun t => match t with
                     | Word w => match lookup dict w with
                                 | Some _ => [w]
                                 | None => []
                                 end
                     | Other _ => []
                     end)
           (tokens text).

End Spec.

(** ** The effects of a call, read off the machine *)

(** The array [logs] after [push] and the eviction test of [log]. *)
Definition push_bounded (size : Z) (e : Entry.t) (l : list Entry.t) : list Entry.t :=
  if size <? array_length (l ++ [e]) then tl (l ++ [e]) else l ++ [e].

(** The entry [log] builds on a machine. *)
Definition entry_now (level : Level) (message : jsstring) (service : option jsstring)
           (details : Details) (m : Machine) : Entry.t :=
  {| Entry.timestamp := clock (world m) (tick (world m));
     Entry.level := level; Entry.service := service;
     Entry.message := message; Entry.details := details |}.

(** The machine after [log] has appended the entry. *)
Definition logged (e : Entry.t) (m : Machine) : Machine :=
  {| this := with_logs (push_bounded (maxLogSize (this m)) e) (this m);
     world := {| tick := S (tick (world m)); clock := clock (world m);
                 rendered := rendered (world m) ++ [e];
                 invoked := invoked (world m) |} |}.

(** The test of the [catch] block for a rate limit. *)
Definition rate_limited (message : jsstring) : bool :=
  includes message (js "429") || includes message (js "limit").

(** A text that has a [length]. *)
Definition hasText (v : Text) : bool :=
  match v with
  | Str _ => true
  | _ => false
  end.

(** The call settled with a result that the loop returns: a success with a
    text. *)
Definition succeeded (o : Outcome) : bool :=
  match o with
  | Fulfilled result => Result.success result && hasText (Result.text result)
  | Rejected _ => false
  end.

(** The error that reaches the [catch] block of the loop: the one the
    adapter was rejected with, or the [TypeError] of the loop itself on a
    success without a text. *)
Definition caught (o : Outcome) : option jsstring :=
  match o with
  | Fulfilled result =>
    if Result.success result && negb (hasText (Result.text result))
    then Some (cannotRead (Result.text result) (js "length"))
    else None
  | Rejected message => Some message
  end.

(** What one settled call does to [failedServices]. *)
Definition track (failed : StringSet.t) (call : jsstring * Outcome) : StringSet.t :=
  match caught (snd call) with
  | Some message =>
    if rate_limited message then StringSet.add failed (fst call) else failed
  | None =>
    if succeeded (snd call) then StringSet.delete failed (fst call) else failed
  end.

(** Level and service of the entries one settled call leaves in the log. *)
Definition records (call : jsstring * Outcome) : list (Level * option jsstring) :=
  (INFO, Some (fst call)) ::
  match caught (snd call) with
  | Some message =>
    (ERROR, Some (fst call)) ::
    (if rate_limited message then [(WARN, Some (fst call))] else [])
  | None =>
    if succeeded (snd call) then [(SUCCESS, Some (fst call))] else []
  end.

Definition headline (e : Entry.t) : Level * option jsstring :=
  (Entry.level e, Entry.service e).

(** The result of [useBackupTranslation]. *)
Definition backup_result (text : jsstring) : Result.t :=
  {| Result.success := true;
     Result.text := Str (backupMarker ++ substitute backupDict text);
     Result.service := Some (js "BackupDictionary") |}.

(** Empty, or made of white space only. *)
Definition blank (text : jsstring) : bool := forallb isWhiteSpace text.

(** A settled call was made to one of the given services. *)
Definition came_from (text sourceLang targetLang : jsstring) (cands : list Service)
           (call : jsstring * Outcome) : Prop :=
  exists s t, In s cands /\ call = (name s, translator s text sourceLang targetLang t).

Definition failing (call : jsstring * Outcome) : bool := negb (succeeded (snd call)).

(** The array [logs] after a sequence of entries went through [log]. *)
Definition push_all (size : Z) (es : list Entry.t) (l : list Entry.t) : list Entry.t :=
  fold_left (fun l e => push_bounded size e l) es l.

(** ** Example machines *)

Module Example.

(** An adapter whose every call is rejected with the given message. *)
Definition rejecting (message : jsstring) : Translator :=
  fun _ _ _ _ => Rejected message.

(** An adapter that answers every call with the given text. *)
Definition answering (service text : jsstring) : Translator :=
  fun _ _ _ _ =>
    Fulfilled {| Result.success := true; Result.text := Str text;
                 Result.service := Some service |}.

(** An adapter that settles without an error and without success. *)
Definition declining : Translator :=
  fun _ _ _ _ =>
    Fulfilled {| Result.success := false; Result.text := Str [];
                 Result.service := None |}.

(** An adapter that answers every call with a success that has no text. *)
Definition textless (service : jsstring) : Translator :=
  fun _ _ _ _ =>
    Fulfilled {| Result.success := true; Result.text := Undefined;
                 Result.service := Some service |}.

Definition limited : Translator := rejecting (js "MyMemory failed: 429 - Rate limit exceeded").
Definition broken : Translator := rejecting (js "Apertium failed: HTTP error: 500").

Definition world0 : World :=
  {| tick := 0; clock := fun n => 1700000000000 + 5 * Z.of_nat n;
     rendered := []; invoked := [] |}.

Definition machine (o : TranslationService) : Machine :=
  {| this := o; world := world0 |}.

(** A service object as constructed, all four adapters failing. *)
Definition failing_service : TranslationService :=
  constructor limited broken broken limited.

Definition entry0 : Entry.t :=
  {| Entry.timestamp := 0; Entry.level := INFO; Entry.service := None;
     Entry.message := js "x"; Entry.details := NoDetails |}.

(** A service object whose log is full. *)
Definition full_service : TranslationService :=
  with_logs (fun _ => repeat entry0 1000) failing_service.


(** A service object as constructed, the first adapter answering with a
    success that has no text and the second one with a translation. *)
Definition first_textless : TranslationService :=
  constructor (textless (js "MyMemory")) (answering (js "LibreTranslate") (js "привіт"))
              broken broken.

(** Three enabled services declared with the priorities 2, 0 and 1. *)
Definition serviceA : Service :=
  {| name := js "A"; translator := broken; priority := 2; enabled := true; url := [] |}.
Definition serviceB : Service :=
  {| name := js "B"; translator := broken; priority := 0; enabled := true; url := [] |}.
Definition serviceC : Service :=
  {| name := js "C"; translator := limited; priority := 1; enabled := true; url := [] |}.

Definition shuffled : TranslationService :=
  {| services := [serviceA; serviceB; serviceC];
     failedServices := []; logs := []; maxLogSize := 1000 |}.

End Example.

(** A call that settled without an error and without success. *)
Definition declined (call : jsstring * Outcome) : bool :=
  match snd call with
  | Fulfilled result => negb (Result.success result)
  | Rejected _ => false
  end.

(** The replacements of all the keys, one after the other, word by word. *)
Definition subst_all (dict : list (jsstring * jsstring)) (ts : list Token) : list Token :=
  fold_left (fun ts kv => flat_map (subst_token (fst kv) (snd kv)) ts) dict ts.

(** ** The adapters of the four remote services *)

(** Expressions that may throw: a value, or the message of the [Error]
    thrown. *)
Inductive Try (A : Type) :=
| Value (a : A)
| Raise (message : jsstring).
Arguments Value {A} a.
Arguments Raise {A} message.

Definition bindT {A B} (c : Try A) (k : A -> Try B) : Try B :=
  match c with
  | Value a => k a
  | Raise message => Raise message
  end.

Declare Scope try_scope.
Delimit Scope try_scope with try.
Notation "x <- c ;; k" := (bindT c (fun x => k))
  (at level 61, c at next level, right associativity) : try_scope.
Notation "c ;; k" := (bindT c (fun _ => k))
  (at level 61, right associativity) : try_scope.

Module URI.

(** The characters [encodeURIComponent] leaves as they are: letters, digits
    and the marks [-_.!~*'()]. *)
Definition unescaped (c : Z) : bool :=
  ((97 <=? c) && (c <=? 122)) || ((65 <=? c) && (c <=? 90))
  || ((48 <=? c) && (c <=? 57))
  || existsb (Z.eqb c) [45; 95; 46; 33; 126; 42; 39; 40; 41].

Definition hexDigit (d : Z) : Z := if d <? 10 then 48 + d else 55 + d.

(** One octet as a percent sign and two upper-case hexadecimal digits. *)
Definition percent (octet : Z) : jsstring :=
  [37; hexDigit (octet / 16); hexDigit (octet mod 16)].

(** The octets of the UTF-8 encoding of a code point. *)
Definition octets (cp : Z) : list Z :=
  if cp <? 128 then [cp]
  else if cp <? 2048 then [192 + cp / 64; 128 + cp mod 64]
  else if cp <? 65536 then
    [224 + cp / 4096; 128 + (cp / 64) mod 64; 128 + cp mod 64]
  else
    [240 + cp / 262144; 128 + (cp / 4096) mod 64; 128 + (cp / 64) mod 64;
     128 + cp mod 64].

Definition isLead (c : Z) : bool := (55296 <=? c) && (c <=? 56319).
Definition isTrail (c : Z) : bool := (56320 <=? c) && (c <=? 57343).

(** [encodeURIComponent(s)]; [malformed] is the message of the [URIError]
    thrown at a surrogate without its pair. *)
Fixpoint encodeURIComponent (malformed : jsstring) (s : jsstring) : Try jsstring :=
  match s with
  | [] => Value []
  | c :: rest =>
    if unescaped c then
      bindT (encodeURIComponent malformed rest) (fun r => Value (c :: r))
    else if isLead c then
      match rest with
      | d :: rest' =>
        if isTrail d then
          bindT (encodeURIComponent malformed rest')
                (fun r => Value (flat_map percent
                                          (octets (65536 + (c - 55296) * 1024 + (d - 56320)))
                                 ++ r))
        else Raise malformed
      | [] => Raise malformed
      end
    else if isTrail c then Raise malformed
    else
      bindT (encodeURIComponent malformed rest)
            (fun r => Value (flat_map percent (octets c) ++ r))
  end.

(** [s.isWellFormed()]: no surrogate without its pair. *)
Fixpoint wellFormed (s : jsstring) : bool :=
  match s with
  | [] => true
  | c :: rest =>
    if isLead c then
      match rest with
      | d :: rest' => isTrail d && wellFormed rest'
      | [] => false
      end
    else negb (isTrail c) && wellFormed rest
  end.

End URI.

Module JSON.

Definition hexDigit (d : Z) : Z := if d <? 10 then 48 + d else 87 + d.

(** [\uXXXX] with lower-case hexadecimal digits. *)
Definition unicodeEscape (c : Z) : jsstring :=
  [92; 117; hexDigit (c / 4096); hexDigit ((c / 256) mod 16);
   hexDigit ((c / 16) mod 16); hexDigit (c mod 16)].

(** The characters of a string between the quotes of its JSON text. *)
Fixpoint quoteChars (s : jsstring) : jsstring :=
  match s with
  | [] => []
  | c :: rest =>
    if c =? 8 then [92; 98] ++ quoteChars rest
    else if c =? 9 then [92; 116] ++ quoteChars rest
    else if c =? 10 then [92; 110] ++ quoteChars rest
    else if c =? 12 then [92; 102] ++ quoteChars rest
    else if c =? 13 then [92; 114] ++ quoteChars rest
    else if c =? 34 then [92; 34] ++ quoteChars rest
    else if c =? 92 then [92; 92] ++ quoteChars rest
    else if c <? 32 then unicodeEscape c ++ quoteChars rest
    else if URI.isLead c then
      match rest with
      | d :: rest' =>
        if URI.isTrail d then c :: d :: quoteChars rest'
        else unicodeEscape c ++ quoteChars rest
      | [] => unicodeEscape c
      end
    else if URI.isTrail c then unicodeEscape c ++ quoteChars rest
    else c :: quoteChars rest
  end.

(** [JSON.stringify(s)] for a string. *)
Definition quote (s : jsstring) : jsstring := [34] ++ quoteChars s ++ [34].

End JSON.

(** The properties every object inherits from [Object.prototype] whose value
    is a function. *)
Definition inheritedMethods : list jsstring :=
  map js [ "constructor"; "hasOwnProperty"; "isPrototypeOf"; "propertyIsEnumerable";
           "toLocaleString"; "toString"; "valueOf"; "__defineGetter__";
           "__defineSetter__"; "__lookupGetter__"; "__lookupSetter__" ]%string.

(** What [langMap[lang] || lang] evaluates to in [translateLibreTranslate]:
    a language code, or for the name of an inherited property the function
    or the prototype object found there. *)
Inductive LangValue :=
| Code (code : jsstring)
| InheritedMethod
| ObjectPrototype.

Definition langMapOr (lang : jsstring) : LangValue :=
  if jsstring_eqb lang (js "en") then Code (js "en")
  else if jsstring_eqb lang (js "uk") then Code (js "uk")
  else if existsb (jsstring_eqb lang) inheritedMethods then InheritedMethod
  else if jsstring_eqb lang (js "__proto__") then ObjectPrototype
  else Code lang.

(** One property of the body of the request, after its key and a colon; a
    property whose value is a function is left out by [JSON.stringify]. *)
Definition langProperty (key : jsstring) (v : LangValue) : list jsstring :=
  match v with
  | Code code => [JSON.quote key ++ [58] ++ JSON.quote code]
  | InheritedMethod => []
  | ObjectPrototype => [JSON.quote key ++ [58] ++ js "{}"]
  end.

Inductive Method := GET | POST.

(** The arguments of a call of [fetch]. *)
Record Request := {
  requestUrl : jsstring;
  requestMethod : Method;
  requestHeaders : list (jsstring * jsstring);
  requestBody : option jsstring
}.

(** [fetch(url)] *)
Definition get_request (url : jsstring) : Request :=
  {| requestUrl := url; requestMethod := GET; requestHeaders := [];
     requestBody := None |}.

Section Adapters.

(** The numbers of a parsed response, with what the adapters ask of them:
    strict equality with an integer literal, truth value, conversion to a
    string. *)
Variable Number : Type.
Variable number_equals : Number -> Z -> bool.
Variable number_truthy : Number -> bool.
Variable number_toString : Number -> jsstring.

(** A value read from a parsed response. *)
#[warnings="-register-all"]
Inductive JSValue :=
| JUndefined
| JNull
| JBoolean (b : bool)
| JNumber (n : Number)
| JString (s : jsstring)
| JArray (items : list JSValue)
| JObject (properties : list (jsstring * JSValue)).

(** What [response.json()] settles to. *)
Inductive Body :=
| Unparsable (message : jsstring)
| Parsed (data : JSValue).

(** What [fetch] settles to: a rejection, or a response with its status and
    body. *)
Inductive FetchOutcome :=
| Failed (message : jsstring)
| Responded (status : Z) (body : Body).

(** The network: the answer to a request made at a given moment. *)
Variable fetch : Request -> nat -> FetchOutcome.

(** The messages of the errors the engine itself throws: reading a property
    of [undefined] or [null], an unpaired surrogate in [encodeURIComponent],
    an object that has no string conversion. *)
Variable typeErrorMessage : JSValue -> jsstring -> jsstring.
Variable uriErrorMessage : jsstring.
Variable convertErrorMessage : jsstring.

(** [ToBoolean] *)
Definition truthy (v : JSValue) : bool :=
  match v with
  | JUndefined | JNull => false
  | JBoolean b => b
  | JNumber n => number_truthy n
  | JString s => negb (falsy s)
  | JArray _ | JObject _ => true
  end.

Definition own (properties : list (jsstring * JSValue)) (key : jsstring) : JSValue :=
  match find (fun kv => jsstring_eqb key (fst kv)) properties with
  | Some kv => snd kv
  | None => JUndefined
  end.

(** [v.key] for one of the keys [responseStatus], [responseData],
    [translatedText]: an own property of an object; no other value has
    them. *)
Definition get_named (v : JSValue) (key : jsstring) : Try JSValue :=
  match v with
  | JUndefined | JNull => Raise (typeErrorMessage v key)
  | JObject properties => Value (own properties key)
  | _ => Value JUndefined
  end.

(** [v[0]] *)
Definition get_first (v : JSValue) : Try JSValue :=
  match v with
  | JUndefined | JNull => Raise (typeErrorMessage v (js "0"))
  | JObject properties => Value (own properties (js "0"))
  | JArray items => Value (hd JUndefined items)
  | JString s =>
    Value (match s with
           | c :: _ => JString [c]
           | [] => JUndefined
           end)
  | _ => Value JUndefined
  end.

(** [v === n] for an integer literal [n]. *)
Definition strict_equals (v : JSValue) (n : Z) : bool :=
  match v with
  | JNumber x => number_equals x n
  | _ => false
  end.

(** [ToString], as a template literal applies it.  An object converts to
    [[object Object]] unless an own property hides the inherited [toString];
    an array joins the conversions of its elements with commas. *)
Fixpoint to_string (v : JSValue) : Try jsstring :=
  match v with
  | JUndefined => Value (js "undefined")
  | JNull => Value (js "null")
  | JBoolean b => Value (if b then js "true" else js "false")
  | JNumber n => Value (number_toString n)
  | JString s => Value s
  | JArray items =>
    (fix elements (vs : list JSValue) : Try jsstring :=
       match vs with
       | [] => Value []
       | x :: rest =>
         bindT (match x with
                | JUndefined | JNull => Value []
                | _ => to_string x
                end)
               (fun s =>
                  match rest with
                  | [] => Value s
                  | _ => bindT (elements rest) (fun r => Value (s ++ [44] ++ r))
                  end)
       end) items
  | JObject properties =>
    if existsb (fun kv => jsstring_eqb (fst kv) (js "toString")) properties
    then Raise convertErrorMessage
    else Value (js "[object Object]")
  end.

(** The object literal an adapter returns. *)
Record RawResult := {
  raw_success : bool;
  raw_text : JSValue;
  raw_service : jsstring
}.

(** How the promise of an adapter settles. *)
Inductive RawOutcome :=
| RawFulfilled (result : RawResult)
| RawRejected (message : jsstring).

(** [response = await fetch(...)] followed by the two tests of the status;
    gives what [response.json()] settles to. *)
Definition fetch_ok (request : Request) (moment : nat) : Try Body :=
  match fetch request moment with
  | Failed message => Raise message
  | Responded status body =>
    if status =? 429 then Raise (js "429 - Rate limit exceeded")
    else if negb ((200 <=? status) && (status <=? 299))
    then Raise (js "HTTP error: " ++ number_to_string status)
    else Value body
  end.

(** [data = await response.json()] *)
Definition response_json (body : Body) : Try JSValue :=
  match body with
  | Unparsable message => Raise message
  | Parsed data => Value data
  end.

(** The [catch] block every adapter ends with. *)
Definition rethrow (service : jsstring) (body : Try RawResult) : RawOutcome :=
  match body with
  | Value result => RawFulfilled result
  | Raise message => RawRejected (service ++ js " failed: " ++ message)
  end.

Local Open Scope try_scope.

(** [translateMyMemory(text, sourceLang, targetLang)] *)
Definition translateMyMemory (text sourceLang targetLang : jsstring) (moment : nat)
  : RawOutcome :=
  rethrow (js "MyMemory")
    (q <- URI.encodeURIComponent uriErrorMessage text ;;
     body <- fetch_ok
               (get_request (js "https://api.mymemory.translated.net/get?q=" ++ q
                             ++ js "&langpair=" ++ sourceLang ++ js "|" ++ targetLang))
               moment ;;
     data <- response_json body ;;
     responseStatus <- get_named data (js "responseStatus") ;;
     if strict_equals responseStatus 200 then
       responseData <- get_named data (js "responseData") ;;
       translatedText <- get_named responseData (js "translatedText") ;;
       Value {| raw_success := true; raw_text := translatedText;
                raw_service := js "MyMemory" |}
     else
       responseStatus <- get_named data (js "responseStatus") ;;
       shown <- to_string responseStatus ;;
       Raise (js "API error: " ++ shown)).

(** [translateLibreTranslate(text, sourceLang, targetLang)] *)
Definition translateLibreTranslate (text sourceLang targetLang : jsstring) (moment : nat)
  : RawOutcome :=
  rethrow (js "LibreTranslate")
    (let source := langMapOr sourceLang in
     let target := langMapOr targetLang in
     body <- fetch_ok
               {| requestUrl := js "https://libretranslate.com/translate";
                  requestMethod := POST;
                  requestHeaders := [(js "Content-Type", js "application/json")];
                  requestBody :=
                    Some ([123]
                          ++ join [44]
                               ([JSON.quote (js "q") ++ [58] ++ JSON.quote text]
                                ++ langProperty (js "source") source
                                ++ langProperty (js "target") target
                                ++ [JSON.quote (js "format") ++ [58]
                                    ++ JSON.quote (js "text")])
                          ++ [125]) |}
               moment ;;
     data <- response_json body ;;
     translatedText <- get_named data (js "translatedText") ;;
     if truthy translatedText then
       translatedText <- get_named data (js "translatedText") ;;
       Value {| raw_success := true; raw_text := translatedText;
                raw_service := js "LibreTranslate" |}
     else Raise (js "No translation received")).

(** [translateApertium(text, sourceLang, targetLang)] *)
Definition translateApertium (text sourceLang targetLang : jsstring) (moment : nat)
  : RawOutcome :=
  rethrow (js "Apertium")
    (let langPair := sourceLang ++ js "|" ++ targetLang in
     q <- URI.encodeURIComponent uriErrorMessage text ;;
     body <- fetch_ok
               (get_request (js "https://apertium.org/apy/translate?q=" ++ q
                             ++ js "&langpair=" ++ langPair))
               moment ;;
     data <- response_json body ;;
     responseData <- get_named data (js "responseData") ;;
     found <- (if truthy responseData
               then get_named responseData (js "translatedText")
               else Value responseData) ;;
     if truthy found then
       responseData <- get_named data (js "responseData") ;;
       translatedText <- get_named responseData (js "translatedText") ;;
       Value {| raw_success := true; raw_text := translatedText;
                raw_service := js "Apertium" |}
     else Raise (js "No translation received")).

(** [translateGoogleAPI(text, sourceLang, targetLang)] *)
Definition translateGoogleAPI (text sourceLang targetLang : jsstring) (moment : nat)
  : RawOutcome :=
  rethrow (js "GoogleTranslate")
    (q <- URI.encodeURIComponent uriErrorMessage text ;;
     body <- fetch_ok
               (get_request (js "https://translate.googleapis.com/translate_a/single?client=gtx&sl="
                             ++ sourceLang ++ js "&tl=" ++ targetLang
                             ++ js "&dt=t&q=" ++ q))
               moment ;;
     data <- response_json body ;;
     found <- (if truthy data then
                 first <- get_first data ;;
                 if truthy first then
                   second <- get_first first ;;
                   if truthy second then get_first second else Value second
                 else Value first
               else Value data) ;;
     if truthy found then
       first <- get_first data ;;
       second <- get_first first ;;
       third <- get_first second ;;
       Value {| raw_success := true; raw_text := third;
                raw_service := js "GoogleTranslate" |}
     else Raise (js "No translation received")).

Local Close Scope try_scope.

(** The text of a result as the orchestrator types it: a string, or none. *)
Definition typed_text (v : JSValue) : option Text :=
  match v with
  | JString s => Some (Str s)
  | JUndefined => Some Undefined
  | JNull => Some Null
  | _ => None
  end.

(** The outcome as the orchestrator types it. *)
Definition typed (o : RawOutcome) : option Outcome :=
  match o with
  | RawRejected message => Some (Rejected message)
  | RawFulfilled result =>
    match typed_text (raw_text result) with
    | Some text =>
      Some (Fulfilled {| Result.success := raw_success result; Result.text := text;
                         Result.service := Some (raw_service result) |})
    | None => None
    end
  end.

End Adapters.

Arguments JUndefined {Number}.
Arguments JNull {Number}.
Arguments JBoolean {Number} b.
Arguments JNumber {Number} n.
Arguments JString {Number} s.
Arguments JArray {Number} items.
Arguments JObject {Number} properties.
Arguments Unparsable {Number} message.
Arguments Parsed {Number} data.
Arguments Failed {Number} message.
Arguments Responded {Number} status body.
Arguments RawFulfilled {Number} result.
Arguments RawRejected {Number} message.
Arguments Build_RawResult {Number}.
Arguments raw_success {Number}.
Arguments raw_text {Number}.
Arguments raw_service {Number}.
Arguments truthy {Number}.
Arguments own {Number}.
Arguments get_named {Number}.
Arguments get_first {Number}.
Arguments strict_equals {Number}.
Arguments to_string {Number}.
Arguments fetch_ok {Number}.
Arguments response_json {Number}.
Arguments rethrow {Number}.
Arguments translateMyMemory {Number}.
Arguments translateLibreTranslate {Number}.
Arguments translateApertium {Number}.
Arguments translateGoogleAPI {Number}.
Arguments typed_text {Number}.
Arguments typed {Number}.

(** ** Example networks *)

Module ExampleNetwork.

(** Numbers as integers, enough for status codes. *)
Definition number_equals (x n : Z) : bool := x =? n.
Definition number_truthy (x : Z) : bool := negb (x =? 0).
Definition number_toString (x : Z) : jsstring := number_to_string x.

Definition typeErrorMessage (v : JSValue Z) (key : jsstring) : jsstring :=
  js "Cannot read properties of " ++
  (match v with JNull => js "null" | _ => js "undefined" end) ++
  js " (reading '" ++ key ++ js "')".
Definition uriErrorMessage : jsstring := js "URI malformed".
Definition convertErrorMessage : jsstring := js "Cannot convert object to primitive value".

(** A network that answers every request with the same status and no body
    that parses. *)
Definition always (status : Z) : Request -> nat -> FetchOutcome Z :=
  fun _ _ => Responded status (Unparsable (js "Unexpected end of JSON input")).

(** A network that answers every request with status 200 and the given
    data. *)
Definition answering (data : JSValue Z)
  : Request -> nat -> FetchOutcome Z :=
  fun _ _ => Responded 200 (Parsed data).

End ExampleNetwork.

(** The status codes of at most three digits. *)
Definition statusCodes : list Z := map Z.of_nat (seq 0 1000).


(** * Properties *)

(** ** Strings: blank texts *)

Lemma trimStart_nil s : trimStart s = [] <-> blank s = true.
Proof.
  unfold blank. induction s as [|c s IH]; simpl.
  - tauto.
  - destruct (isWhiteSpace c); simpl.
    + exact IH.
    + split; discriminate.
Qed.

Lemma trimStart_blank s : blank (trimStart s) = true -> trimStart s = [].
Proof.
  unfold blank. induction s as [|c s IH]; simpl; auto.
  destruct (isWhiteSpace c) eqn:E; auto.
  simpl. rewrite E. discriminate.
Qed.

Lemma blank_rev s : blank (rev s) = blank s.
Proof.
  unfold blank. apply eq_true_iff_eq. rewrite !forallb_forall.
  split; intros H x Hx; apply H; [apply in_rev in Hx | apply in_rev]; auto.
Qed.

Lemma trim_falsy text : falsy (trim text) = blank text.
Proof.
  apply eq_true_iff_eq.
  assert (Hf : forall s : jsstring, falsy s = true <-> s = []).
  { intros [|]; simpl; split; congruence. }
  rewrite Hf. unfold trim, trimEnd. split; intros H.
  - apply trimStart_nil, trimStart_blank.
    rewrite <- blank_rev. apply trimStart_nil.
    apply (f_equal (@rev Z)) in H. rewrite rev_involutive in H. exact H.
  - apply trimStart_nil in H. rewrite H. reflexivity.
Qed.

(** ** Sorting *)

Section Sort.
Context {A : Type} (key : A -> Z).

Let compare (a b : A) : Z := key a - key b.

Lemma sort_insert_perm x l : Permutation (sort_insert compare x l) (x :: l).
Proof.
  induction l as [|y l IH]; simpl.
  - apply Permutation_refl.
  - destruct (0 <? compare x y).
    + eapply perm_trans; [apply perm_skip, IH | apply perm_swap].
    + apply Permutation_refl.
Qed.

Lemma sort_perm l : Permutation (sort compare l) l.
Proof.
  induction l as [|x l IH]; simpl.
  - constructor.
  - eapply perm_trans; [apply sort_insert_perm | apply perm_skip, IH].
Qed.

Lemma sort_insert_sorted x l :
  StronglySorted (fun a b => key a <= key b) l ->
  StronglySorted (fun a b => key a <= key b) (sort_insert compare x l).
Proof.
  induction 1 as [|y l Hl IH Hy]; simpl.
  - repeat constructor.
  - unfold compare at 1. destruct (0 <? key x - key y) eqn:E.
    + constructor; [exact IH|].
      rewrite Forall_forall in *. intros z Hz.
      apply (Permutation_in _ (sort_insert_perm x l)) in Hz.
      destruct Hz as [<-|Hz]; [apply Z.ltb_lt in E; lia | auto].
    + apply Z.ltb_ge in E.
      constructor; [constructor; assumption|].
      constructor; [lia|].
      rewrite Forall_forall in *. intros z Hz. specialize (Hy z Hz). lia.
Qed.

Lemma sort_sorted l : StronglySorted (fun a b => key a <= key b) (sort compare l).
Proof.
  induction l; simpl; [constructor | apply sort_insert_sorted; assumption].
Qed.

(** Stability: the elements of one key keep their order. *)
Lemma sort_insert_stable p x l :
  filter (fun a => key a =? p) (sort_insert compare x l)
  = filter (fun a => key a =? p) (x :: l).
Proof.
  induction l as [|y l IH]; simpl; [reflexivity|].
  unfold compare at 1. destruct (0 <? key x - key y) eqn:E; [|reflexivity].
  apply Z.ltb_lt in E. simpl. rewrite IH. simpl.
  destruct (key x =? p) eqn:Ex, (key y =? p) eqn:Ey; try reflexivity.
  apply Z.eqb_eq in Ex, Ey. lia.
Qed.

Lemma sort_stable p l :
  filter (fun a => key a =? p) (sort compare l) = filter (fun a => key a =? p) l.
Proof.
  induction l as [|x l IH]; simpl; [reflexivity|].
  rewrite sort_insert_stable. simpl. rewrite IH. reflexivity.
Qed.

End Sort.

(** ** Whole-word replacement *)

Section Replace.
Import RegExp.

Lemma canonicalize_lower p c :
  isLowerLetter p = true ->
  (canonicalize p =? canonicalize c) = true <-> lower c = p.
Proof.
  unfold isLowerLetter, canonicalize, lower. intros Hp.
  rewrite Z.eqb_eq.
  destruct ((97 <=? c) && (c <=? 122)) eqn:E2;
    destruct ((65 <=? c) && (c <=? 90)) eqn:E3; rewrite Hp; lia.
Qed.

Lemma canonicalize_other p c :
  isLowerLetter p = true -> isWordChar c = false ->
  (canonicalize p =? canonicalize c) = false.
Proof.
  unfold isLowerLetter, canonicalize, isWordChar. intros Hp Hc.
  apply Z.eqb_neq. rewrite Hp.
  destruct ((97 <=? c) && (c <=? 122)) eqn:E2; lia.
Qed.

Lemma untokens_tokens s : untokens (tokens s) = s.
Proof.
  induction s as [|c s IH]; simpl; [reflexivity|].
  destruct (isWordChar c).
  - destruct (tokens s) as [|[w|d] rest]; simpl in *; congruence.
  - simpl. congruence.
Qed.

Lemma wf_tokens s : wf (tokens s).
Proof.
  induction s as [|c s IH]; simpl; [exact I|].
  destruct (isWordChar c) eqn:E.
  - destruct (tokens s) as [|[w|d] rest]; simpl in *.
    + repeat split; [discriminate | rewrite E; reflexivity].
    + destruct IH as (Hw & Hall & Hs & Hr).
      repeat split; [discriminate | rewrite E, Hall; reflexivity | assumption | assumption].
    + repeat split; [discriminate | rewrite E; reflexivity | apply IH | apply IH].
  - simpl. auto.
Qed.

Lemma hd_untokens ts :
  wf ts -> starts_with_word ts = false -> isWordAt (hd_error (untokens ts)) = false.
Proof.
  destruct ts as [|[w|c] rest]; simpl; intros H Hs; try reflexivity; try discriminate.
  apply H.
Qed.

Lemma untokens_app ts1 ts2 : untokens (ts1 ++ ts2) = untokens ts1 ++ untokens ts2.
Proof. apply flat_map_app. Qed.

Lemma untokens_others v : untokens (map Other v) = v.
Proof. induction v; simpl; congruence. Qed.

(** The pattern after its first assertion, on a run of word characters [w]
    that ends where [rest] begins: it matches when the run is the key. *)
Lemma match_tail k :
  forallb isLowerLetter k = true ->
  forall w prev rest,
    forallb isWordChar w = true ->
    isWordAt (hd_error rest) = false ->
    isWordAt prev = true ->
    match match_chars k prev (w ++ rest) with
    | Some (last, rest') => boundary last (hd_error rest')
    | None => false
    end = true <-> map lower w = k.
Proof.
  induction k as [|p k IH]; intros Hk w prev rest Hw Hrest Hprev.
  - simpl. unfold boundary. rewrite Hprev.
    destruct w as [|c w]; simpl in *.
    + rewrite Hrest. simpl. tauto.
    + apply andb_prop in Hw. destruct Hw as [Hc _]. rewrite Hc. simpl.
      split; discriminate.
  - simpl in Hk. apply andb_prop in Hk. destruct Hk as [Hp Hk].
    destruct w as [|c w]; simpl in *.
    + destruct rest as [|c rest]; [split; discriminate|].
      simpl in Hrest. rewrite (canonicalize_other p c Hp Hrest).
      split; discriminate.
    + apply andb_prop in Hw. destruct Hw as [Hc Hw].
      destruct (canonicalize p =? canonicalize c) eqn:E.
      * apply canonicalize_lower in E; [|exact Hp].
        rewrite (IH Hk w (Some c) rest Hw Hrest Hc).
        split; intros H; [congruence | inversion H; reflexivity].
      * split; [discriminate|]. intros H. inversion H as [[H1 H2]].
        apply (canonicalize_lower p c Hp) in H1. congruence.
Qed.

Variables word value : jsstring.
Hypothesis word_letters : forallb isLowerLetter word = true.
Hypothesis word_nonempty : word <> [].
Hypothesis value_other : forallb (fun c => negb (isWordChar c)) value = true.

(** At the start of a whole word the pattern matches when the word is the
    key. *)
Lemma match_here_word w prev rest :
  w <> [] -> forallb isWordChar w = true ->
  isWordAt prev = false -> isWordAt (hd_error rest) = false ->
  match_here word prev (w ++ rest) = true <-> map lower w = word.
Proof.
  intros Hne Hw Hprev Hrest.
  destruct w as [|c w]; [congruence|].
  destruct word as [|p k] eqn:Eword; [congruence|].
  simpl in Hw. apply andb_prop in Hw. destruct Hw as [Hc Hw].
  simpl in word_letters. apply andb_prop in word_letters.
  destruct word_letters as [Hp Hk].
  unfold match_here, boundary. rewrite Hprev. simpl. rewrite Hc. simpl.
  destruct (canonicalize p =? canonicalize c) eqn:E.
  - apply canonicalize_lower in E; [|exact Hp].
    rewrite (match_tail k Hk w (Some c) rest Hw Hrest Hc).
    split; intros H; [congruence | inversion H; reflexivity].
  - split; [discriminate|]. intros H. inversion H as [[H1 H2]].
    apply (canonicalize_lower p c Hp) in H1. congruence.
Qed.

(** No match starts at a character that is not a word character. *)
Lemma match_here_other prev c s :
  isWordChar c = false -> match_here word prev (c :: s) = false.
Proof.
  intros Hc. unfold match_here.
  destruct word as [|p k]; [congruence|].
  simpl in word_letters. apply andb_prop in word_letters.
  destruct word_letters as [Hp _].
  simpl. rewrite (canonicalize_other p c Hp Hc). apply andb_false_r.
Qed.

(** No match starts inside a word. *)
Lemma match_here_inside prev c s :
  isWordAt prev = true -> isWordChar c = true ->
  match_here word prev (c :: s) = false.
Proof.
  intros Hprev Hc. unfold match_here, boundary. simpl.
  rewrite Hprev, Hc. reflexivity.
Qed.

Lemma skip_word w : forall prev rest,
  exists prev',
    replace_scan word value prev (List.length w) (w ++ rest)
    = replace_scan word value prev' 0 rest.
Proof.
  induction w as [|c w IH]; intros prev rest; simpl.
  - exists prev. destruct rest; reflexivity.
  - apply IH.
Qed.

Lemma copy_word w : forall prev rest,
  isWordAt prev = true -> forallb isWordChar w = true ->
  exists prev',
    replace_scan word value prev 0 (w ++ rest)
    = w ++ replace_scan word value prev' 0 rest.
Proof.
  induction w as [|c w IH]; intros prev rest Hprev Hw; simpl in *.
  - exists prev. reflexivity.
  - apply andb_prop in Hw. destruct Hw as [Hc Hw].
    rewrite (match_here_inside prev c _ Hprev Hc).
    destruct (IH (Some c) rest Hc Hw) as [prev' H].
    exists prev'. rewrite H. reflexivity.
Qed.

(** One global replacement, read on the tokens of the text. *)
Lemma replace_scan_tokens ts :
  wf ts ->
  forall prev,
    (starts_with_word ts = true -> isWordAt prev = false) ->
    replace_scan word value prev 0 (untokens ts)
    = untokens (flat_map (subst_token word value) ts).
Proof.
  induction ts as [|[w|c] rest IH]; intros Hwf prev Hprev.
  - reflexivity.
  - destruct Hwf as (Hne & Hw & Hs & Hrest).
    assert (Hhd := hd_untokens rest Hrest Hs).
    assert (Hm := match_here_word w prev (untokens rest) Hne Hw (Hprev eq_refl) Hhd).
    assert (Hnext : forall prev', replace_scan word value prev' 0 (untokens rest)
                             = untokens (flat_map (subst_token word value) rest)).
    { intros prev'. apply IH; [exact Hrest|]. rewrite Hs. discriminate. }
    change (untokens (Word w :: rest)) with (w ++ untokens rest).
    change (flat_map (subst_token word value) (Word w :: rest))
      with (subst_token word value (Word w) ++ flat_map (subst_token word value) rest).
    rewrite untokens_app. simpl subst_token.
    destruct w as [|c w]; [congruence|].
    simpl in Hw. apply andb_prop in Hw. destruct Hw as [Hc Hw].
    simpl app at 1. simpl replace_scan.
    change (c :: w ++ untokens rest) with ((c :: w) ++ untokens rest).
    destruct (match_here word prev ((c :: w) ++ untokens rest)) eqn:E.
    + assert (Heq : map lower (c :: w) = word) by (apply Hm; reflexivity).
      assert (Hb : jsstring_eqb (map lower (c :: w)) word = true)
        by (apply jsstring_eqb_eq; exact Heq).
      rewrite Hb, untokens_others.
      assert (Hlen : (List.length word - 1)%nat = List.length w).
      { rewrite <- Heq. simpl. rewrite length_map. lia. }
      rewrite Hlen.
      destruct (skip_word w (Some c) (untokens rest)) as [prev' Hskip].
      rewrite Hskip, Hnext. reflexivity.
    + assert (Hb : jsstring_eqb (map lower (c :: w)) word = false).
      { destruct (jsstring_eqb (map lower (c :: w)) word) eqn:Eb; [|reflexivity].
        apply jsstring_eqb_eq, Hm in Eb. congruence. }
      rewrite Hb.
      destruct (copy_word w (Some c) (untokens rest) Hc Hw) as [prev' Hcopy].
      rewrite Hcopy, Hnext. simpl. rewrite app_nil_r. reflexivity.
  - destruct Hwf as (Hc & Hrest).
    simpl. rewrite (match_here_other prev c _ Hc).
    f_equal. apply IH; [exact Hrest|]. intros _. simpl. exact Hc.
Qed.

Lemma wf_others ts : wf ts -> wf (map Other value ++ ts).
Proof.
  intros Hts. induction value as [|c v IH]; simpl in *; [exact Hts|].
  apply andb_prop in value_other. destruct value_other as [Hc Hv].
  split; [apply negb_true_iff; exact Hc | apply IH; exact Hv].
Qed.

Lemma starts_subst ts :
  starts_with_word ts = false ->
  starts_with_word (flat_map (subst_token word value) ts) = false.
Proof. destruct ts as [|[w|c] rest]; simpl; congruence. Qed.

Lemma wf_subst ts : wf ts -> wf (flat_map (subst_token word value) ts).
Proof.
  induction ts as [|[w|c] rest IH]; intros Hwf; simpl in *.
  - exact I.
  - destruct Hwf as (Hne & Hw & Hs & Hrest).
    destruct (jsstring_eqb (map lower w) word).
    + apply wf_others, IH, Hrest.
    + simpl. repeat split; auto using starts_subst.
  - destruct Hwf. auto.
Qed.

End Replace.

Lemma translate_subst k v d ts :
  flat_map (translate_token d) (flat_map (subst_token k v) ts)
  = flat_map (translate_token ((k, v) :: d)) ts.
Proof.
  induction ts as [|[w|c] rest IH]; simpl; [reflexivity| |congruence].
  rewrite flat_map_app, IH. f_equal.
  unfold lookup. simpl.
  destruct (jsstring_eqb (map lower w) k); simpl.
  - clear. induction v; simpl; congruence.
  - apply app_nil_r.
Qed.

(** The loop of replacements, read on the tokens of the text. *)
Lemma substitute_tokens dict :
  forallb plain_entry dict = true ->
  forall ts, wf ts ->
    substitute dict (untokens ts) = flat_map (translate_token dict) ts.
Proof.
  unfold substitute.
  induction dict as [|[k v] d IH]; intros Hd ts Hwf; simpl.
  - unfold untokens. apply flat_map_ext. intros [w|c]; reflexivity.
  - simpl in Hd. apply andb_prop in Hd. destruct Hd as [Hkv Hd].
    unfold plain_entry in Hkv. simpl in Hkv.
    apply andb_prop in Hkv. destruct Hkv as [Hkv Hv].
    apply andb_prop in Hkv. destruct Hkv as [Hne Hk].
    assert (Hne' : k <> []) by (destruct k; [discriminate | congruence]).
    assert (Hv' : forallb (fun c => negb (RegExp.isWordChar c)) v = true).
    { rewrite forallb_forall in *. intros c Hc. specialize (Hv c Hc).
      apply andb_prop in Hv. apply Hv. }
    unfold RegExp.replace at 2.
    rewrite (replace_scan_tokens k v Hk Hne' ts Hwf None (fun _ => eq_refl)).
    rewrite (IH Hd _ (wf_subst k v Hv' ts Hwf)).
    apply translate_subst.
Qed.

Lemma substitute_whole_words dict text :
  forallb plain_entry dict = true ->
  substitute dict text = whole_word_substitution dict text.
Proof.
  intros Hd. unfold whole_word_substitution.
  rewrite <- (substitute_tokens dict Hd _ (wf_tokens text)).
  rewrite untokens_tokens. reflexivity.
Qed.

Lemma backupDict_plain : forallb plain_entry backupDict = true.
Proof. vm_compute. reflexivity. Qed.

(** ** The log *)

Arguments js : simpl never.
Arguments includes : simpl never.
Arguments number_to_string : simpl never.
Arguments substitute : simpl never.
Arguments join : simpl never.
Arguments substring0 : simpl never.
Arguments availableServices : simpl never.
Arguments push_bounded : simpl never.

Lemma log_spec level message service details m :
  log level message service details m
  = (Normal tt, logged (entry_now level message service details m) m).
Proof.
  unfold log, bind, Date_now, set_this, get, updateLogsUI, set_world, logged,
    push_bounded, entry_now, with_logs.
  cbn.
  destruct (maxLogSize (this m) <? array_length (logs (this m) ++ _)); reflexivity.
Qed.

Lemma useBackupTranslation_spec text m :
  useBackupTranslation text m
  = (Normal (backup_result text),
     logged (entry_now WARN (js "Використання резервного перекладу")
                       (Some (js "Backup")) NoDetails m) m).
Proof.
  unfold useBackupTranslation, bind. rewrite log_spec. reflexivity.
Qed.

(** The [TypeError] of a success without a text is no rate limit. *)
Lemma cannotRead_not_rate_limited v :
  rate_limited (cannotRead v (js "length")) = false.
Proof. destruct v; vm_compute; reflexivity. Qed.

(** An error with a rate-limit message comes from the adapter. *)
Lemma caught_rate_limited o message :
  caught o = Some message -> rate_limited message = true -> o = Rejected message.
Proof.
  destruct o as [r|msg]; cbn.
  - destruct (Result.success r && negb (hasText (Result.text r))); [|discriminate].
    intros [= <-]. rewrite cannotRead_not_rate_limited. discriminate.
  - intros [= ->]. reflexivity.
Qed.

Lemma succeeded_inv o :
  succeeded o = true ->
  exists r translated,
    o = Fulfilled r /\ Result.success r = true /\ Result.text r = Str translated.
Proof.
  destruct o as [r|msg]; cbn; [|discriminate].
  destruct (Result.success r) eqn:Er; [|discriminate].
  destruct (Result.text r) as [translated| |] eqn:Et; cbn; try discriminate.
  intros _. exists r, translated. auto.
Qed.

Lemma attempt_spec text sourceLang targetLang s m :
  exists new_r,
    let o := translator s text sourceLang targetLang (S (S (tick (world m)))) in
    let cm := attempt text sourceLang targetLang s m in
    fst cm = Normal (if succeeded o then
                       match o with Fulfilled r => Some r | Rejected _ => None end
                     else None)
    /\ services (this (snd cm)) = services (this m)
    /\ failedServices (this (snd cm)) = track (failedServices (this m)) (name s, o)
    /\ invoked (world (snd cm)) = invoked (world m) ++ [(name s, o)]
    /\ rendered (world (snd cm)) = rendered (world m) ++ new_r
    /\ maxLogSize (this (snd cm)) = maxLogSize (this m)
    /\ logs (this (snd cm)) = push_all (maxLogSize (this m)) new_r (logs (this m))
    /\ map headline new_r = records (name s, o).
Proof.
  unfold attempt, try_catch, bind. rewrite log_spec.
  unfold Date_now. cbn [fst snd this world logged tick advance].
  unfold await_translator. cbn [fst snd this world logged tick advance clock rendered invoked].
  destruct (translator s text sourceLang targetLang (S (S (tick (world m))))) as [r|msg] eqn:E.
  - cbn [this world tick clock]. unfold track, records. cbn [fst snd succeeded caught].
    destruct (Result.success r) eqn:Er.
    + unfold get_length. destruct (Result.text r) as [translated| |] eqn:Et.
      * rewrite log_spec. unfold set_this, ret.
        eexists. cbn. rewrite <- !app_assoc. cbn.
        repeat split; reflexivity.
      * rewrite log_spec. cbn [hasText negb andb].
        fold (rate_limited (cannotRead Undefined (js "length"))).
        rewrite cannotRead_not_rate_limited. unfold ret.
        eexists. cbn. rewrite <- !app_assoc. cbn.
        repeat split; reflexivity.
      * rewrite log_spec. cbn [hasText negb andb].
        fold (rate_limited (cannotRead Null (js "length"))).
        rewrite cannotRead_not_rate_limited. unfold ret.
        eexists. cbn. rewrite <- !app_assoc. cbn.
        repeat split; reflexivity.
    + eexists. cbn. repeat split; reflexivity.
  - rewrite log_spec. unfold track, records. cbn [fst snd succeeded caught].
    fold (rate_limited msg).
    destruct (rate_limited msg) eqn:Em.
    + unfold set_this. rewrite log_spec. unfold ret.
      eexists. cbn. rewrite <- !app_assoc. cbn.
      repeat split; reflexivity.
    + unfold ret. eexists. cbn. rewrite <- !app_assoc. cbn.
      repeat split; reflexivity.
Qed.

(** ** The loop over the candidates *)

Lemma for_of_cons {A R} (body : A -> M (option R)) x rest m :
  for_of (x :: rest) body m
  = match body x m with
    | (Normal (Some v), m1) => (Normal (Some v), m1)
    | (Normal None, m1) => for_of rest body m1
    | (Throw e, m1) => (Throw e, m1)
    end.
Proof.
  simpl. unfold bind. destruct (body x m) as [[[v|]|e] m1]; reflexivity.
Qed.

(** The loop, described by the calls it made: which services, in which order,
    how [failedServices] and the log followed, and what it returned. *)
Lemma loop_trace text sourceLang targetLang cands : forall m,
  exists new_i new_r,
    let cm := for_of cands (attempt text sourceLang targetLang) m in
    services (this (snd cm)) = services (this m)
    /\ failedServices (this (snd cm)) = fold_left track new_i (failedServices (this m))
    /\ invoked (world (snd cm)) = invoked (world m) ++ new_i
    /\ rendered (world (snd cm)) = rendered (world m) ++ new_r
    /\ maxLogSize (this (snd cm)) = maxLogSize (this m)
    /\ logs (this (snd cm)) = push_all (maxLogSize (this m)) new_r (logs (this m))
    /\ map headline new_r = flat_map records new_i
    /\ map fst new_i = firstn (List.length new_i) (map name cands)
    /\ Forall (came_from text sourceLang targetLang cands) new_i
    /\ ((exists pre n r,
            new_i = pre ++ [(n, Fulfilled r)] /\ Result.success r = true
            /\ forallb failing pre = true /\ fst cm = Normal (Some r)
            /\ hasText (Result.text r) = true)
        \/ (forallb failing new_i = true
            /\ List.length new_i = List.length cands /\ fst cm = Normal None)).
Proof.
  induction cands as [|s rest IH]; intros m.
  - exists [], []. cbn. rewrite !app_nil_r. repeat split; auto.
  - destruct (attempt_spec text sourceLang targetLang s m) as [r1 H].
    cbn zeta in H.
    set (o := translator s text sourceLang targetLang (S (S (tick (world m))))) in *.
    assert (Hfrom : came_from text sourceLang targetLang (s :: rest) (name s, o)).
    { exists s, (S (S (tick (world m)))). split; [left; reflexivity | reflexivity]. }
    rewrite for_of_cons.
    destruct (attempt text sourceLang targetLang s m) as [c1 m1].
    cbn [fst snd] in H. destruct H as (Hc & Hs & Hf & Hi & Hr & Hz & Hl & Hh).
    destruct (succeeded o) eqn:Eo.
    + destruct o as [r|msg]; [|discriminate]. cbn in Eo.
      apply andb_prop in Eo. destruct Eo as [Er Et]. subst c1.
      exists [(name s, Fulfilled r)], r1. cbn [fst snd].
      repeat split; auto.
      * cbn. rewrite app_nil_r. exact Hh.
      * left. exists [], (name s), r. repeat split; auto.
    + subst c1. destruct (IH m1) as (new_i & new_r & IH1).
      cbn zeta in IH1.
      destruct (for_of rest (attempt text sourceLang targetLang) m1) as [c m'].
      cbn [fst snd] in *.
      destruct IH1 as (Hs' & Hf' & Hi' & Hr' & Hz' & Hl' & Hh' & Hn' & Hfrom' & Hres).
      exists ((name s, o) :: new_i), (r1 ++ new_r).
      repeat split.
      * congruence.
      * rewrite Hf', Hf. reflexivity.
      * rewrite Hi', Hi, <- app_assoc. reflexivity.
      * rewrite Hr', Hr, <- app_assoc. reflexivity.
      * congruence.
      * rewrite Hl', Hl, Hz. unfold push_all. rewrite fold_left_app. reflexivity.
      * rewrite map_app, Hh, Hh'. reflexivity.
      * cbn. f_equal. exact Hn'.
      * constructor; [exact Hfrom|].
        eapply Forall_impl; [|exact Hfrom'].
        intros call (s' & t & Hin & Hcall). exists s', t. split; [right|]; assumption.
      * destruct Hres as [(pre & n & r & Hnew & Hsucc & Hpre & Hc & Ht)|(Hall & Hlen & Hc)].
        -- left. exists ((name s, o) :: pre), n, r. subst new_i.
           repeat split; auto.
           cbn. unfold failing at 1. cbn. rewrite Eo. exact Hpre.
        -- right. repeat split; auto.
           ++ cbn. unfold failing at 1. cbn. rewrite Eo. exact Hall.
           ++ cbn. congruence.
Qed.

(** ** A call of [translateText], described by the adapter calls it made *)

Lemma availableServices_logged e m :
  availableServices (this (logged e m)) = availableServices (this m).
Proof. reflexivity. Qed.

Lemma translateText_blank text sourceLang targetLang m :
  blank text = true ->
  translateText text sourceLang targetLang m
  = (Normal {| Result.success := false; Result.text := Str []; Result.service := None |},
     logged (entry_now WARN (js "Спроба перекладу пустого тексту") None NoDetails m) m).
Proof.
  intros Hb. unfold translateText. rewrite trim_falsy, Hb.
  unfold bind. rewrite log_spec. reflexivity.
Qed.

(** The call on a text that is not blank, statement by statement. *)
Lemma translateText_run text sourceLang targetLang m :
  blank text = false ->
  let cands := availableServices (this m) in
  let m1 :=
    logged (entry_now INFO
              (js "Початок перекладу: " ++ [34] ++ substring0 50 text ++ js "..." ++ [34])
              None (RequestDetails sourceLang targetLang (js_length text)) m) m in
  let m2 :=
    logged (entry_now INFO
              (js "Доступні сервіси: " ++ join (js ", ") (map name cands)) None
              (AvailableDetails (array_length cands)
                                (StringSet.to_array (failedServices (this m)))) m1) m1 in
  let fallback (error : Entry.t) (m3 : Machine) :=
    (Normal (backup_result text),
     logged (entry_now WARN (js "Використання резервного перекладу")
                       (Some (js "Backup")) NoDetails (logged error m3))
            (logged error m3)) in
  translateText text sourceLang targetLang m
  = if array_length cands =? 0 then
      fallback (entry_now ERROR (js "Немає доступних сервісів перекладу")
                          None NoDetails m2) m2
    else
      match for_of cands (attempt text sourceLang targetLang) m2 with
      | (Normal (Some result), m3) => (Normal result, m3)
      | (Normal None, m3) =>
        fallback (entry_now ERROR (js "Усі сервіси перекладу не спрацювали") None
                            (FailedDetails (StringSet.to_array (failedServices (this m3))))
                            m3) m3
      | (Throw e, m3) => (Throw e, m3)
      end.
Proof.
  intros Hb. cbn zeta. unfold translateText. rewrite trim_falsy, Hb.
  unfold bind at 1. rewrite log_spec.
  unfold bind at 1. unfold get at 1.
  unfold bind at 1. unfold get at 1.
  unfold bind at 1. rewrite log_spec.
  rewrite availableServices_logged.
  change (failedServices (this (logged ?e m))) with (failedServices (this m)).
  destruct (array_length (availableServices (this m)) =? 0).
  - unfold bind. rewrite log_spec, useBackupTranslation_spec. reflexivity.
  - unfold bind at 1.
    destruct (for_of _ _ _) as [[[r|]|e] m3]; try reflexivity.
    unfold bind. unfold get at 1. rewrite log_spec, useBackupTranslation_spec.
    reflexivity.
Qed.

Lemma translateText_trace text sourceLang targetLang m c m' :
  translateText text sourceLang targetLang m = (c, m') ->
  blank text = false ->
  exists new_i new_r,
    services (this m') = services (this m)
    /\ failedServices (this m') = fold_left track new_i (failedServices (this m))
    /\ invoked (world m') = invoked (world m) ++ new_i
    /\ rendered (world m') = rendered (world m) ++ new_r
    /\ maxLogSize (this m') = maxLogSize (this m)
    /\ logs (this m') = push_all (maxLogSize (this m)) new_r (logs (this m))
    /\ map fst new_i
       = firstn (List.length new_i) (map name (availableServices (this m)))
    /\ Forall (came_from text sourceLang targetLang (availableServices (this m))) new_i
    /\ ((exists pre n r,
            new_i = pre ++ [(n, Fulfilled r)] /\ Result.success r = true
            /\ forallb failing pre = true /\ c = Normal r
            /\ map headline new_r
               = [(INFO, None); (INFO, None)] ++ flat_map records new_i
            /\ hasText (Result.text r) = true)
        \/ (forallb failing new_i = true
            /\ List.length new_i = List.length (availableServices (this m))
            /\ c = Normal (backup_result text)
            /\ map headline new_r
               = [(INFO, None); (INFO, None)] ++ flat_map records new_i
                 ++ [(ERROR, None); (WARN, Some (js "Backup"))])).
Proof.
  intros Hrun Hb. rewrite (translateText_run _ _ _ _ Hb) in Hrun. cbn zeta in Hrun.
  remember (availableServices (this m)) as cands eqn:Ecands.
  set (m1 := logged _ m) in Hrun.
  set (m2 := logged _ m1) in Hrun.
  destruct (array_length cands =? 0) eqn:Elen.
  - assert (Hnil : cands = []).
    { apply Z.eqb_eq in Elen. unfold array_length in Elen.
      destruct cands; [reflexivity | discriminate]. }
    inversion Hrun; subst c m'. clear Hrun. rewrite Hnil.
    exists []. eexists.
    repeat split; try reflexivity.
    + cbn. rewrite app_nil_r. reflexivity.
    + cbn. rewrite <- !app_assoc. reflexivity.
    + reflexivity.
    + constructor.
    + right. repeat split; reflexivity.
  - destruct (loop_trace text sourceLang targetLang cands m2) as (new_i & new_r & H).
    cbn zeta in H.
    destruct (for_of cands (attempt text sourceLang targetLang) m2) as [c3 m3].
    cbn [fst snd] in H.
    destruct H as (Hs & Hf & Hi & Hr & Hz & Hl & Hh & Hn & Hfrom & Hres).
    destruct Hres as [(pre & n & r & Hnew & Hsucc & Hpre & Hc & Ht)|(Hall & Hlen & Hc)];
      subst c3; inversion Hrun; subst c m'; clear Hrun.
    + exists new_i. eexists.
      split; [exact Hs|]. split; [exact Hf|]. split; [exact Hi|].
      split; [rewrite Hr; cbn; rewrite <- !app_assoc; reflexivity|].
      split; [exact Hz|].
      split; [rewrite Hl; reflexivity|].
      split; [exact Hn|]. split; [exact Hfrom|].
      left. exists pre, n, r. repeat split; auto.
      cbn. rewrite Hh. reflexivity.
    + exists new_i. eexists.
      split; [exact Hs|]. split; [exact Hf|]. split; [exact Hi|].
      split; [cbn; rewrite Hr; cbn; rewrite <- !app_assoc; reflexivity|].
      split; [exact Hz|].
      split; [cbn; rewrite Hl, Hz; unfold push_all; cbn; rewrite fold_left_app; reflexivity|].
      split; [exact Hn|]. split; [exact Hfrom|].
      right. repeat split; auto.
      cbn. rewrite !map_app, Hh. reflexivity.
Qed.

(** * The claims *)

(** ** The event log *)

Lemma push_bounded_length e l :
  (List.length l <= 1000)%nat -> (List.length (push_bounded 1000 e l) <= 1000)%nat.
Proof.
  intros H. unfold push_bounded, array_length. rewrite length_app. cbn.
  destruct (1000 <? Z.of_nat (List.length l + 1)) eqn:E.
  - destruct l; cbn in *; [lia|]. rewrite length_app. cbn. lia.
  - apply Z.ltb_ge in E. rewrite length_app. cbn. lia.
Qed.

Lemma push_all_length es : forall l,
  (List.length l <= 1000)%nat -> (List.length (push_all 1000 es l) <= 1000)%nat.
Proof.
  induction es as [|e es IH]; intros l H; cbn; [exact H|].
  apply IH, push_bounded_length, H.
Qed.

(** C6. After an append the log holds at most 1000 entries: the new entry is
    at the end, and when the log already held 1000 entries the oldest one, at
    the front, is gone.  A whole call of [translateText], which appends
    several entries, keeps the bound as well. *)
Theorem log_keeps_bound level message service details m :
  maxLogSize (this m) = 1000 ->
  (List.length (logs (this m)) <= 1000)%nat ->
  let e := entry_now level message service details m in
  let after := logs (this (snd (log level message service details m))) in
  (List.length after <= 1000)%nat
  /\ after = (if (List.length (logs (this m)) =? 1000)%nat
              then tl (logs (this m)) else logs (this m)) ++ [e]
  /\ (forall text sourceLang targetLang,
        let m' := snd (translateText text sourceLang targetLang m) in
        maxLogSize (this m') = 1000 /\ (List.length (logs (this m')) <= 1000)%nat).
Proof.
  intros Hmax Hlen. cbn zeta. split; [|split].
  - rewrite log_spec. cbn [snd this logged with_logs logs].
    rewrite Hmax. apply push_bounded_length, Hlen.
  - rewrite log_spec. cbn [snd this logged with_logs logs]. rewrite Hmax.
    unfold push_bounded, array_length. rewrite length_app. cbn [List.length].
    destruct (List.length (logs (this m)) =? 1000)%nat eqn:E.
    + apply Nat.eqb_eq in E. rewrite E.
      destruct (logs (this m)); [discriminate | reflexivity].
    + apply Nat.eqb_neq in E.
      destruct (1000 <? Z.of_nat (List.length (logs (this m)) + 1)) eqn:E';
        [|reflexivity].
      apply Z.ltb_lt in E'. lia.
  - intros text sourceLang targetLang.
    destruct (blank text) eqn:Hb.
    + rewrite (translateText_blank _ _ _ _ Hb). cbn [snd this logged with_logs logs maxLogSize].
      split; [exact Hmax|]. rewrite Hmax. apply push_bounded_length, Hlen.
    + destruct (translateText text sourceLang targetLang m) as [c m'] eqn:Hrun.
      destruct (translateText_trace _ _ _ _ _ _ Hrun Hb)
        as (new_i & new_r & _ & _ & _ & _ & Hz & Hl & _).
      cbn [snd]. rewrite Hz, Hl, Hmax. split; [reflexivity|].
      apply push_all_length, Hlen.
Qed.

Lemma log_keeps_bound_witness :
  let m := Example.machine Example.full_service in
  let e := entry_now WARN (js "Ліміт") None NoDetails m in
  let after := logs (this (snd (log WARN (js "Ліміт") None NoDetails m))) in
  List.length (logs (this m)) = 1000%nat
  /\ (List.length after <= 1000)%nat
  /\ after = (if (List.length (logs (this m)) =? 1000)%nat
              then tl (logs (this m)) else logs (this m)) ++ [e]
  /\ (forall text sourceLang targetLang,
        let m' := snd (translateText text sourceLang targetLang m) in
        maxLogSize (this m') = 1000 /\ (List.length (logs (this m')) <= 1000)%nat).
Proof.
  split; [reflexivity|].
  apply (log_keeps_bound WARN (js "Ліміт") None NoDetails
                         (Example.machine Example.full_service)).
  - reflexivity.
  - apply Nat.leb_le. vm_compute. reflexivity.
Defined.

(** ** Blank texts *)

(** C5. A text that is empty or all white space gets the failed result with
    the empty text; exactly one entry, of level WARN, goes to the log; no
    adapter is called and [failedServices] is as before. *)
Theorem blank_text_declined text sourceLang targetLang m :
  blank text = true ->
  let run := translateText text sourceLang targetLang m in
  fst run = Normal {| Result.success := false; Result.text := Str [];
                      Result.service := None |}
  /\ (exists e,
        Entry.level e = WARN
        /\ rendered (world (snd run)) = rendered (world m) ++ [e]
        /\ logs (this (snd run)) = push_bounded (maxLogSize (this m)) e (logs (this m)))
  /\ invoked (world (snd run)) = invoked (world m)
  /\ failedServices (this (snd run)) = failedServices (this m)
  /\ services (this (snd run)) = services (this m).
Proof.
  intros Hb. cbn zeta. rewrite (translateText_blank _ _ _ _ Hb). cbn [fst snd].
  split; [reflexivity|]. split; [|repeat split].
  exists (entry_now WARN (js "Спроба перекладу пустого тексту") None NoDetails m).
  repeat split.
Qed.

Lemma blank_text_declined_witness :
  let m := Example.machine Example.failing_service in
  let run := translateText [32; 9; 10; 160] (js "en") (js "uk") m in
  fst run = Normal {| Result.success := false; Result.text := Str [];
                      Result.service := None |}
  /\ (exists e,
        Entry.level e = WARN
        /\ rendered (world (snd run)) = rendered (world m) ++ [e]
        /\ logs (this (snd run)) = push_bounded (maxLogSize (this m)) e (logs (this m)))
  /\ invoked (world (snd run)) = invoked (world m)
  /\ failedServices (this (snd run)) = failedServices (this m)
  /\ services (this (snd run)) = services (this m).
Proof.
  apply (blank_text_declined [32; 9; 10; 160] (js "en") (js "uk")
                             (Example.machine Example.failing_service)).
  reflexivity.
Defined.

(** ** Every call resolves *)

(** C1. A call never throws: it resolves with a result, and the result is a
    success exactly when the text is not blank. *)
Theorem translate_resolves text sourceLang targetLang m :
  exists result,
    fst (translateText text sourceLang targetLang m) = Normal result
    /\ Result.success result = negb (blank text).
Proof.
  destruct (blank text) eqn:Hb.
  - rewrite (translateText_blank _ _ _ _ Hb). eexists. split; reflexivity.
  - destruct (translateText text sourceLang targetLang m) as [c m'] eqn:Hrun.
    destruct (translateText_trace _ _ _ _ _ _ Hrun Hb)
      as (new_i & new_r & _ & _ & _ & _ & _ & _ & _ & _ & Hres).
    destruct Hres as [(pre & n & r & _ & Hsucc & _ & Hc & _)|(_ & _ & Hc & _)];
      subst c; eexists; split; try reflexivity. exact Hsucc.
Qed.

(** ** The candidate list *)

Lemma availableServices_perm o :
  Permutation (availableServices o)
    (filter (fun s => enabled s && negb (StringSet.has (failedServices o) (name s)))
            (services o)).
Proof. unfold availableServices. apply (sort_perm priority). Qed.

Lemma availableServices_In o s :
  In s (availableServices o)
  <-> In s (services o) /\ enabled s = true
      /\ StringSet.has (failedServices o) (name s) = false.
Proof.
  split.
  - intros H. apply (Permutation_in _ (availableServices_perm o)) in H.
    apply filter_In in H. destruct H as [Hin H].
    apply andb_prop in H. destruct H as [He Hf].
    apply negb_true_iff in Hf. auto.
  - intros (Hin & He & Hf).
    apply (Permutation_in _ (Permutation_sym (availableServices_perm o))).
    apply filter_In. split; [exact Hin|]. rewrite He, Hf. reflexivity.
Qed.

(** C3. The candidate list holds exactly the enabled services whose name is
    not in [failedServices], in ascending order of priority, services of
    equal priority in their order of declaration; the adapters are called in
    the order of that list.  With three enabled services of priorities 2, 0
    and 1 the order is the second, the third, the first. *)
Theorem candidates_by_priority :
  (forall o,
     let eligible s := enabled s && negb (StringSet.has (failedServices o) (name s)) in
     Permutation (availableServices o) (filter eligible (services o))
     /\ (forall s, In s (availableServices o)
                   <-> In s (services o) /\ enabled s = true
                       /\ StringSet.has (failedServices o) (name s) = false)
     /\ StronglySorted (fun a b => priority a <= priority b) (availableServices o)
     /\ (forall p, filter (fun s => priority s =? p) (availableServices o)
                   = filter (fun s => priority s =? p) (filter eligible (services o))))
  /\ (forall text sourceLang targetLang m,
        blank text = false ->
        exists calls,
          invoked (world (snd (translateText text sourceLang targetLang m)))
          = invoked (world m) ++ calls
          /\ map fst calls
             = firstn (List.length calls) (map name (availableServices (this m))))
  /\ (forall o a b c,
        services o = [a; b; c] -> failedServices o = [] ->
        enabled a = true -> enabled b = true -> enabled c = true ->
        priority a = 2 -> priority b = 0 -> priority c = 1 ->
        availableServices o = [b; c; a]).
Proof.
  split; [|split].
  - intros o eligible. split; [|split; [|split]].
    + apply availableServices_perm.
    + apply availableServices_In.
    + unfold availableServices. apply (sort_sorted priority).
    + intros p. unfold availableServices. apply (sort_stable priority).
  - intros text sourceLang targetLang m Hb.
    destruct (translateText text sourceLang targetLang m) as [c m'] eqn:Hrun.
    destruct (translateText_trace _ _ _ _ _ _ Hrun Hb)
      as (new_i & new_r & _ & _ & Hi & _ & _ & _ & Hn & _).
    exists new_i. split; assumption.
  - intros o a b c Hs Hf Ha Hb Hc Pa Pb Pc.
    unfold availableServices. rewrite Hs, Hf.
    destruct a, b, c. cbn in Ha, Hb, Hc, Pa, Pb, Pc. subst. reflexivity.
Qed.

Lemma candidates_by_priority_witness :
  availableServices Example.shuffled
  = [Example.serviceB; Example.serviceC; Example.serviceA]
  /\ map fst (invoked (world (snd (translateText (js "hello") (js "en") (js "uk")
                                     (Example.machine Example.shuffled)))))
     = [js "B"; js "C"; js "A"].
Proof.
  split.
  - apply (proj2 (proj2 candidates_by_priority) Example.shuffled
                 Example.serviceA Example.serviceB Example.serviceC);
      reflexivity.
  - vm_compute. reflexivity.
Defined.

(** ** The set of failed services *)

Lemma jsstring_eqb_refl x : jsstring_eqb x x = true.
Proof. apply jsstring_eqb_eq. reflexivity. Qed.

Lemma jsstring_eqb_neq x y : x <> y -> jsstring_eqb x y = false.
Proof.
  intros H. destruct (jsstring_eqb x y) eqn:E; [|reflexivity].
  apply jsstring_eqb_eq in E. contradiction.
Qed.

Lemma has_app s1 s2 x :
  StringSet.has (s1 ++ s2) x = StringSet.has s1 x || StringSet.has s2 x.
Proof. unfold StringSet.has. apply existsb_app. Qed.

Lemma has_add_same s x : StringSet.has (StringSet.add s x) x = true.
Proof.
  unfold StringSet.add. destruct (StringSet.has s x) eqn:E; [exact E|].
  rewrite has_app, E. cbn. rewrite jsstring_eqb_refl. reflexivity.
Qed.

Lemma has_add_other s x y :
  x <> y -> StringSet.has (StringSet.add s x) y = StringSet.has s y.
Proof.
  intros H. unfold StringSet.add. destruct (StringSet.has s x); [reflexivity|].
  rewrite has_app. cbn. rewrite (jsstring_eqb_neq y x) by congruence.
  rewrite !orb_false_r. reflexivity.
Qed.


Lemma has_delete_other s x y :
  x <> y -> StringSet.has (StringSet.delete s x) y = StringSet.has s y.
Proof.
  intros H. unfold StringSet.has, StringSet.delete.
  induction s as [|z s IH]; cbn; [reflexivity|].
  destruct (jsstring_eqb x z) eqn:E; cbn.
  - apply jsstring_eqb_eq in E. subst z.
    rewrite (jsstring_eqb_neq y x) by congruence. exact IH.
  - rewrite IH. reflexivity.
Qed.

(** A settled call changes the membership of its own service only. *)
Lemma track_other failed call x :
  fst call <> x -> StringSet.has (track failed call) x = StringSet.has failed x.
Proof.
  intros H. unfold track. destruct (caught (snd call)) as [msg|].
  - destruct (rate_limited msg); [apply has_add_other, H | reflexivity].
  - destruct (succeeded (snd call)); [apply has_delete_other, H | reflexivity].
Qed.

Lemma tracks_other calls x : forall failed,
  ~ In x (map fst calls) ->
  StringSet.has (fold_left track calls failed) x = StringSet.has failed x.
Proof.
  induction calls as [|call calls IH]; intros failed H; cbn [fold_left];
    [reflexivity|].
  cbn in H. rewrite IH by tauto. apply track_other. tauto.
Qed.

Lemma tracks_rate_limited calls n message : forall failed,
  NoDup (map fst calls) ->
  In (n, Rejected message) calls ->
  rate_limited message = true ->
  StringSet.has (fold_left track calls failed) n = true.
Proof.
  induction calls as [|call calls IH]; intros failed Hnd Hin Hrl; [contradiction|].
  cbn in Hnd. inversion Hnd as [|x l Hx Hl]; subst.
  destruct Hin as [->|Hin]; cbn [fold_left].
  - cbn in Hx. rewrite tracks_other by exact Hx.
    unfold track. cbn. rewrite Hrl. apply has_add_same.
  - apply IH; assumption.
Qed.

Lemma NoDup_map_filter {A B} (f : A -> B) (p : A -> bool) l :
  NoDup (map f l) -> NoDup (map f (filter p l)).
Proof.
  induction l as [|x l IH]; cbn; intros H; [constructor|].
  inversion H as [|y l' Hx Hl]; subst.
  destruct (p x); cbn; [|apply IH, Hl].
  constructor; [|apply IH, Hl].
  intros Hin. apply Hx. apply in_map_iff in Hin. destruct Hin as (z & Hz & Hin).
  apply filter_In in Hin. apply in_map_iff. exists z. tauto.
Qed.

Lemma availableServices_NoDup o :
  NoDup (map name (services o)) -> NoDup (map name (availableServices o)).
Proof.
  intros H.
  eapply Permutation_NoDup;
    [apply Permutation_sym, Permutation_map, availableServices_perm|].
  apply NoDup_map_filter, H.
Qed.

Lemma NoDup_firstn {A} k (l : list A) : NoDup l -> NoDup (firstn k l).
Proof.
  intros H. rewrite <- (firstn_skipn k l) in H.
  apply NoDup_app_remove_r in H. exact H.
Qed.

Lemma In_firstn {A} k (l : list A) x : In x (firstn k l) -> In x l.
Proof.
  intros H. rewrite <- (firstn_skipn k l). apply in_or_app. left. exact H.
Qed.


Lemma map_In_inv {A B} (f : A -> B) l y : In y (map f l) -> exists x, In x l /\ f x = y.
Proof. intros H. apply in_map_iff in H. destruct H as (x & Hx & Hin). eauto. Qed.

(** ** Calls and their effects *)








(** C4. The claim does not hold of the code.  The adapter of MyMemory
    returns a success without a text when the answer of the remote service
    has status 200 and no [translatedText]; the adapters of the other three
    services throw in that case.  On such a result the loop throws a
    [TypeError] inside its [try] when it reads the length of the text: no
    SUCCESS entry is appended, an ERROR entry for the service is, the result
    is not returned, and the next candidate is called.  Here the answer of
    MyMemory is the object with [responseStatus] 200 and an empty
    [responseData], and LibreTranslate translates. *)
Theorem success_without_text_not_returned :
  let body : JSValue Z :=
    JObject [(js "responseStatus", JNumber 200); (js "responseData", JObject [])] in
  let answer := {| Result.success := true; Result.text := Undefined;
                   Result.service := Some (js "MyMemory") |} in
  let translation := {| Result.success := true; Result.text := Str (js "привіт");
                        Result.service := Some (js "LibreTranslate") |} in
  let run := translateText (js "hello") (js "en") (js "uk")
                           (Example.machine Example.first_textless) in
  (forall moment,
     typed (translateMyMemory ExampleNetwork.number_equals ExampleNetwork.number_toString
                              (ExampleNetwork.answering body)
                              ExampleNetwork.typeErrorMessage
                              ExampleNetwork.uriErrorMessage
                              ExampleNetwork.convertErrorMessage
                              (js "hello") (js "en") (js "uk") moment)
     = Some (Fulfilled answer))
  /\ invoked (world (snd run))
     = [(js "MyMemory", Fulfilled answer); (js "LibreTranslate", Fulfilled translation)]
  /\ fst run = Normal translation
  /\ map (fun e => (Entry.level e, Entry.service e, Entry.details e))
         (skipn 2 (rendered (world (snd run))))
     = [(INFO, Some (js "MyMemory"), NoDetails);
        (ERROR, Some (js "MyMemory"),
         ErrorDetails (js "Cannot read properties of undefined (reading 'length')"));
        (INFO, Some (js "LibreTranslate"), NoDetails);
        (SUCCESS, Some (js "LibreTranslate"), SuccessDetails (js "10ms") 6)].
Proof.
  cbn zeta. split; [|split; [|split]].
  - intros moment. vm_compute. reflexivity.
  - vm_compute. reflexivity.
  - vm_compute. reflexivity.
  - vm_compute. reflexivity.
Qed.

(** ** The fallback *)



(** ** The backup dictionary *)

(** C8, as stated, fails: a key that is part of a longer token is replaced
    when the rest of the token is not ASCII.  In señor, which is one token
    and no key, the letters or after the ñ become the value of the key or. *)
Lemma key_inside_token_is_replaced :
  Spec.tokens (js "señor") = [Word (js "señor")]
  /\ Spec.substitution backupDict (js "señor") = js "señor"
  /\ substitute backupDict (js "señor") = js "señабо"
  /\ ~ (forall text, substitute backupDict text = Spec.substitution backupDict text).
Proof.
  split; [vm_compute; reflexivity|]. split; [vm_compute; reflexivity|].
  split; [vm_compute; reflexivity|].
  intros H. specialize (H (js "señor")). vm_compute in H. discriminate.
Qed.

(** C8, amended.  The substitution of the backup dictionary replaces exactly
    the keys that stand as whole words, case ignored, and keeps every other
    character, where a whole word is a maximal run of the word characters of
    the regular expression: ASCII letters, digits and the underscore.  In
    this is a test the word is becomes its translation and the letters is at
    the end of this stay. *)
Theorem backup_replaces_whole_words :
  (forall text m,
     exists result,
       fst (useBackupTranslation text m) = Normal result
       /\ Result.text result
          = Str (backupMarker ++ whole_word_substitution backupDict text))
  /\ tokens (js "this is a test")
     = [Word (js "this"); Other 32; Word (js "is"); Other 32; Word (js "a");
        Other 32; Word (js "test")]
  /\ substitute backupDict (js "this is a test") = js "this є a test".
Proof.
  split; [|split; vm_compute; reflexivity].
  intros text m. rewrite useBackupTranslation_spec. eexists. split; [reflexivity|].
  cbn. rewrite (substitute_whole_words _ _ backupDict_plain). reflexivity.
Qed.

Lemma translate_no_keys dict ts :
  flat_map (fun t => match t with
                     | Word w => match lookup dict w with
                                 | Some _ => [w]
                                 | None => []
                                 end
                     | Other _ => []
                     end) ts = [] ->
  flat_map (translate_token dict) ts = untokens ts.
Proof.
  induction ts as [|[w|c] ts IH]; cbn; intros H; [reflexivity| |f_equal; auto].
  destruct (lookup dict w); [discriminate|].
  cbn in H. rewrite (IH H). reflexivity.
Qed.

(** C9, as stated, fails: Noël is one token and no key, so the text holds
    no key as a whole word, and yet its backup translation is not the marker
    followed by the text: the letters No before the ë are replaced by the
    value of the key no. *)
Lemma text_without_keys_is_changed :
  Spec.tokens (js "Noël") = [Word (js "Noël")]
  /\ Spec.key_words backupDict (js "Noël") = []
  /\ fst (useBackupTranslation (js "Noël") (Example.machine Example.failing_service))
     = Normal {| Result.success := true;
                 Result.text := Str (backupMarker ++ js "ніël");
                 Result.service := Some (js "BackupDictionary") |}
  /\ ~ (forall text m,
          Spec.key_words backupDict text = [] ->
          fst (useBackupTranslation text m)
          = Normal {| Result.success := true;
                      Result.text := Str (backupMarker ++ text);
                      Result.service := Some (js "BackupDictionary") |}).
Proof.
  split; [vm_compute; reflexivity|]. split; [vm_compute; reflexivity|].
  split; [vm_compute; reflexivity|].
  intros H.
  specialize (H (js "Noël") (Example.machine Example.failing_service) eq_refl).
  vm_compute in H. discriminate.
Qed.

(** C9, amended.  On a text in which no maximal run of ASCII letters, digits
    and underscores is a key of the dictionary, case ignored, the backup
    translation returns the marker followed by the text as it is; the result
    depends on the text alone, and it is always a success. *)
Theorem backup_without_keys text m :
  key_words backupDict text = [] ->
  fst (useBackupTranslation text m)
  = Normal {| Result.success := true; Result.text := Str (backupMarker ++ text);
              Result.service := Some (js "BackupDictionary") |}
  /\ (forall text' m1 m2,
        fst (useBackupTranslation text' m1) = fst (useBackupTranslation text' m2))
  /\ (forall text' m', exists result,
        fst (useBackupTranslation text' m') = Normal result
        /\ Result.success result = true).
Proof.
  intros Hkeys. split; [|split].
  - rewrite useBackupTranslation_spec. cbn [fst]. unfold backup_result.
    rewrite (substitute_whole_words _ _ backupDict_plain).
    unfold whole_word_substitution.
    rewrite (translate_no_keys _ _ Hkeys), untokens_tokens. reflexivity.
  - intros text' m1 m2. rewrite !useBackupTranslation_spec. reflexivity.
  - intros text' m'. rewrite useBackupTranslation_spec. eexists. split; reflexivity.
Qed.

Lemma backup_without_keys_witness :
  let text := js "Добрий день, everyone: thanks!" in
  fst (useBackupTranslation text (Example.machine Example.failing_service))
  = Normal {| Result.success := true; Result.text := Str (backupMarker ++ text);
              Result.service := Some (js "BackupDictionary") |}
  /\ (forall text' m1 m2,
        fst (useBackupTranslation text' m1) = fst (useBackupTranslation text' m2))
  /\ (forall text' m', exists result,
        fst (useBackupTranslation text' m') = Normal result
        /\ Result.success result = true).
Proof.
  apply (backup_without_keys (js "Добрий день, everyone: thanks!")
                             (Example.machine Example.failing_service)).
  vm_compute. reflexivity.
Defined.

(** ** Adapters that decline *)

Lemma declined_quiet call :
  declined call = true -> caught (snd call) = None /\ succeeded (snd call) = false.
Proof.
  unfold declined, caught, succeeded. destruct (snd call) as [r|msg]; [|discriminate].
  intros Hd. apply negb_true_iff in Hd. rewrite Hd. split; reflexivity.
Qed.

Lemma tracks_declined calls : forall failed,
  forallb declined calls = true -> fold_left track calls failed = failed.
Proof.
  induction calls as [|call calls IH]; intros failed H; cbn [fold_left forallb] in *;
    [reflexivity|].
  apply andb_prop in H. destruct H as [Hd H]. rewrite <- (IH failed H) at 2.
  f_equal. unfold track. destruct (declined_quiet _ Hd) as [-> ->]. reflexivity.
Qed.

Lemma records_declined calls :
  forallb declined calls = true ->
  flat_map records calls = map (fun call => (INFO, Some (fst call))) calls.
Proof.
  induction calls as [|call calls IH]; intros H; cbn [flat_map map forallb] in *;
    [reflexivity|].
  apply andb_prop in H. destruct H as [Hd H]. rewrite (IH H).
  unfold records. destruct (declined_quiet _ Hd) as [-> ->]. reflexivity.
Qed.

(** C10. When the adapter of a candidate settles with a result that is not a
    success, the iteration goes on with the next candidate; of that candidate
    only the INFO entry announcing the attempt went to the log, and
    [failedServices] is as before.  When every adapter called does so, the
    call falls back to the backup dictionary, [failedServices] is as before,
    and the entries of the candidates in the log are their INFO entries. *)
Theorem declined_result_is_skipped text sourceLang targetLang :
  (forall s rest m result,
     invoked (world (snd (attempt text sourceLang targetLang s m)))
     = invoked (world m) ++ [(name s, Fulfilled result)] ->
     Result.success result = false ->
     let run := attempt text sourceLang targetLang s m in
     fst run = Normal None
     /\ for_of (s :: rest) (attempt text sourceLang targetLang) m
        = for_of rest (attempt text sourceLang targetLang) (snd run)
     /\ failedServices (this (snd run)) = failedServices (this m)
     /\ (exists e,
           Entry.level e = INFO
           /\ rendered (world (snd run)) = rendered (world m) ++ [e]
           /\ logs (this (snd run))
              = push_bounded (maxLogSize (this m)) e (logs (this m))))
  /\ (forall m calls,
        blank text = false ->
        invoked (world (snd (translateText text sourceLang targetLang m)))
        = invoked (world m) ++ calls ->
        forallb declined calls = true ->
        let run := translateText text sourceLang targetLang m in
        fst run = Normal (backup_result text)
        /\ map fst calls = map name (availableServices (this m))
        /\ failedServices (this (snd run)) = failedServices (this m)
        /\ (exists entries,
              rendered (world (snd run)) = rendered (world m) ++ entries
              /\ map headline entries
                 = [(INFO, None); (INFO, None)]
                   ++ map (fun call => (INFO, Some (fst call))) calls
                   ++ [(ERROR, None); (WARN, Some (js "Backup"))])).
Proof.
  split.
  - intros s rest m result Hi Hsucc. cbn zeta.
    destruct (attempt_spec text sourceLang targetLang s m) as [new_r H].
    cbn zeta in H. rewrite for_of_cons.
    destruct (attempt text sourceLang targetLang s m) as [c m'].
    cbn [fst snd] in *.
    destruct H as (Hc & _ & Hf & Hi' & Hr & Hz & Hl & Hh).
    rewrite Hi' in Hi. apply app_inv_head in Hi. inversion Hi as [Ho].
    rewrite Ho in *. cbn in Hc. rewrite Hsucc in Hc. subst c.
    split; [reflexivity|]. split; [reflexivity|]. split.
    + rewrite Hf. unfold track. cbn. rewrite Hsucc. reflexivity.
    + unfold records in Hh. cbn in Hh. rewrite Hsucc in Hh.
      destruct new_r as [|e [|e' new_r]]; try discriminate.
      inversion Hh. exists e. rewrite Hl. auto.
  - intros m calls Hb Hi Hdecl. cbn zeta.
    destruct (translateText text sourceLang targetLang m) as [c m'] eqn:Hrun.
    cbn [fst snd] in *.
    destruct (translateText_trace _ _ _ _ _ _ Hrun Hb)
      as (new_i & new_r & _ & Hf & Hi' & Hr & _ & _ & Hn & _ & Hres).
    rewrite Hi' in Hi. apply app_inv_head in Hi. subst new_i.
    destruct Hres as [(pre & n & r & Hcalls & Hsucc & _)|(_ & Hlen & Hc & Hh)].
    + exfalso. rewrite Hcalls, forallb_app in Hdecl.
      apply andb_prop in Hdecl. destruct Hdecl as [_ Hd].
      unfold declined in Hd. cbn in Hd. rewrite Hsucc in Hd. discriminate.
    + split; [exact Hc|]. split; [|split].
      * rewrite Hn. apply firstn_all2. rewrite length_map. lia.
      * rewrite Hf. apply tracks_declined, Hdecl.
      * exists new_r. split; [exact Hr|].
        rewrite Hh, (records_declined _ Hdecl). reflexivity.
Qed.

Lemma declined_result_is_skipped_witness :
  let s := {| name := js "Polite"; translator := Example.declining; priority := 0;
              enabled := true; url := [] |} in
  let m := Example.machine Example.failing_service in
  let run := attempt (js "hello") (js "en") (js "uk") s m in
  fst run = Normal None
  /\ for_of [s; Example.serviceA] (attempt (js "hello") (js "en") (js "uk")) m
     = for_of [Example.serviceA] (attempt (js "hello") (js "en") (js "uk")) (snd run)
  /\ failedServices (this (snd run)) = failedServices (this m)
  /\ (exists e,
        Entry.level e = INFO
        /\ rendered (world (snd run)) = rendered (world m) ++ [e]
        /\ logs (this (snd run)) = push_bounded (maxLogSize (this m)) e (logs (this m))).
Proof.
  apply (proj1 (declined_result_is_skipped (js "hello") (js "en") (js "uk"))
           {| name := js "Polite"; translator := Example.declining; priority := 0;
              enabled := true; url := [] |}
           [Example.serviceA]
           (Example.machine Example.failing_service)
           {| Result.success := false; Result.text := Str []; Result.service := None |});
    reflexivity.
Defined.

(** The word characters are those of the regular expression: a key next to a
    letter outside ASCII is a whole word. *)
Remark word_characters_are_ascii :
  substitute backupDict (js "señor") = js "señабо"
  /\ tokens (js "señor") = [Word (js "se"); Other 241; Word (js "or")].
Proof. split; vm_compute; reflexivity. Qed.

Remark number_to_string_examples :
  number_to_string 0 = js "0" /\ number_to_string 125 = js "125"
  /\ number_to_string (-3) = js "-3".
Proof. repeat split; vm_compute; reflexivity. Qed.

(** * Further properties of the service *)

(** ** What a call does, blank text or not *)

Lemma translateText_effects text sourceLang targetLang m :
  let m' := snd (translateText text sourceLang targetLang m) in
  exists calls entries,
    invoked (world m') = invoked (world m) ++ calls
    /\ rendered (world m') = rendered (world m) ++ entries
    /\ services (this m') = services (this m)
    /\ maxLogSize (this m') = maxLogSize (this m)
    /\ logs (this m') = push_all (maxLogSize (this m)) entries (logs (this m))
    /\ failedServices (this m') = fold_left track calls (failedServices (this m))
    /\ map fst calls
       = firstn (List.length calls) (map name (availableServices (this m)))
    /\ Forall (came_from text sourceLang targetLang (availableServices (this m))) calls.
Proof.
  cbn zeta. destruct (blank text) eqn:Hb.
  - rewrite (translateText_blank _ _ _ _ Hb). cbn [snd].
    exists [], [entry_now WARN (js "Спроба перекладу пустого тексту") None NoDetails m].
    cbn. rewrite app_nil_r. repeat split. constructor.
  - destruct (translateText text sourceLang targetLang m) as [c m'] eqn:Hrun.
    destruct (translateText_trace _ _ _ _ _ _ Hrun Hb)
      as (new_i & new_r & Hs & Hf & Hi & Hr & Hz & Hl & Hn & Hfrom & _).
    exists new_i, new_r. cbn [snd]. repeat split; assumption.
Qed.

Lemma calls_of text sourceLang targetLang m calls :
  invoked (world (snd (translateText text sourceLang targetLang m)))
  = invoked (world m) ++ calls ->
  let m' := snd (translateText text sourceLang targetLang m) in
  failedServices (this m') = fold_left track calls (failedServices (this m))
  /\ map fst calls = firstn (List.length calls) (map name (availableServices (this m)))
  /\ Forall (came_from text sourceLang targetLang (availableServices (this m))) calls.
Proof.
  intros Hi. cbn zeta.
  destruct (translateText_effects text sourceLang targetLang m)
    as (calls' & entries & Hi' & _ & _ & _ & _ & Hf & Hn & Hfrom).
  cbn zeta in *. rewrite Hi' in Hi. apply app_inv_head in Hi. subst calls'. auto.
Qed.

Lemma called_is_candidate text sourceLang targetLang m calls n :
  invoked (world (snd (translateText text sourceLang targetLang m)))
  = invoked (world m) ++ calls ->
  In n (map fst calls) ->
  StringSet.has (failedServices (this m)) n = false.
Proof.
  intros Hi Hin. destruct (calls_of _ _ _ _ _ Hi) as (_ & Hn & _).
  rewrite Hn in Hin. apply In_firstn in Hin.
  apply map_In_inv in Hin. destruct Hin as (s & Hs & <-).
  apply availableServices_In in Hs. apply Hs.
Qed.

Lemma has_delete_sub s x y :
  StringSet.has (StringSet.delete s x) y = true -> StringSet.has s y = true.
Proof.
  unfold StringSet.has, StringSet.delete. rewrite !existsb_exists.
  intros (z & Hz & Hy). apply filter_In in Hz. exists z. tauto.
Qed.

Lemma tracks_added calls n : forall failed,
  StringSet.has (fold_left track calls failed) n = true ->
  StringSet.has failed n = true
  \/ exists message, In (n, Rejected message) calls /\ rate_limited message = true.
Proof.
  induction calls as [|[x o] calls IH]; intros failed H; cbn [fold_left] in H.
  - left. exact H.
  - destruct (IH _ H) as [H1|(msg & Hin & Hrl)].
    + unfold track in H1. cbn [fst snd] in H1.
      destruct (caught o) as [msg|] eqn:Ec.
      * destruct (rate_limited msg) eqn:Hrl; [|auto].
        destruct (list_eq_dec Z.eq_dec x n) as [->|Hne].
        -- right. exists msg. rewrite (caught_rate_limited _ _ Ec Hrl).
           split; [left; reflexivity | exact Hrl].
        -- left. rewrite has_add_other in H1; assumption.
      * destruct (succeeded o); [left; eapply has_delete_sub; eauto | auto].
    + right. exists msg. split; [right; exact Hin | exact Hrl].
Qed.

Lemma marks_kept text sourceLang targetLang m n :
  StringSet.has (failedServices (this m)) n = true ->
  StringSet.has (failedServices (this (snd (translateText text sourceLang targetLang m))))
                n = true.
Proof.
  intros Hhas.
  destruct (translateText_effects text sourceLang targetLang m)
    as (calls & entries & Hi & _ & _ & _ & _ & Hf & _).
  cbn zeta in *. rewrite Hf, tracks_other; [exact Hhas|].
  intros Hin. rewrite (called_is_candidate _ _ _ _ _ _ Hi Hin) in Hhas.
  discriminate.
Qed.

(** X1. A call of [translateText] never clears a mark: a name that is in
    [failedServices] before the call is in it afterwards, whatever the
    adapters answer.  A name that is in it afterwards was in it before, or
    belongs to a service whose call was rejected with a rate-limit message. *)
Theorem marks_are_sticky text sourceLang targetLang m calls n :
  invoked (world (snd (translateText text sourceLang targetLang m)))
  = invoked (world m) ++ calls ->
  let m' := snd (translateText text sourceLang targetLang m) in
  (StringSet.has (failedServices (this m)) n = true ->
   StringSet.has (failedServices (this m')) n = true)
  /\ (StringSet.has (failedServices (this m')) n = true ->
      StringSet.has (failedServices (this m)) n = true
      \/ exists message,
           In (n, Rejected message) calls
           /\ (includes message (js "429") = true
               \/ includes message (js "limit") = true)).
Proof.
  intros Hi. cbn zeta. destruct (calls_of _ _ _ _ _ Hi) as (Hf & _ & _).
  split; [apply marks_kept|].
  rewrite Hf.
  - intros Hhas. destruct (tracks_added _ _ _ Hhas) as [H|(msg & Hin & Hrl)]; [auto|].
    right. exists msg. split; [exact Hin|]. apply orb_true_iff. exact Hrl.
Qed.

Lemma marks_are_sticky_witness :
  let m0 := Example.machine Example.failing_service in
  let m := snd (translateText (js "hello") (js "en") (js "uk") m0) in
  let m' := snd (translateText (js "good morning") (js "en") (js "uk") m) in
  StringSet.has (failedServices (this m)) (js "MyMemory") = true
  /\ StringSet.has (failedServices (this m')) (js "MyMemory") = true.
Proof.
  split; [vm_compute; reflexivity|].
  apply (marks_are_sticky
           (js "good morning") (js "en") (js "uk")
           (snd (translateText (js "hello") (js "en") (js "uk")
                               (Example.machine Example.failing_service)))
           [(js "LibreTranslate", Rejected (js "Apertium failed: HTTP error: 500"));
            (js "Apertium", Rejected (js "Apertium failed: HTTP error: 500"))]
           (js "MyMemory")).
  - vm_compute. reflexivity.
  - vm_compute. reflexivity.
Defined.

(** ** Which adapters a call reaches *)

(** X2. The adapters called during a call belong to services that were
    enabled and not marked failed when the call began; there are no more calls
    than services, and when the names of the services are unique no service
    is called twice. *)
Theorem only_available_services_called text sourceLang targetLang m calls :
  invoked (world (snd (translateText text sourceLang targetLang m)))
  = invoked (world m) ++ calls ->
  Forall (fun call =>
            exists s t,
              In s (services (this m)) /\ enabled s = true
              /\ StringSet.has (failedServices (this m)) (name s) = false
              /\ call = (name s, translator s text sourceLang targetLang t))
         calls
  /\ (List.length calls <= List.length (services (this m)))%nat
  /\ (NoDup (map name (services (this m))) -> NoDup (map fst calls)).
Proof.
  intros Hi. destruct (calls_of _ _ _ _ _ Hi) as (_ & Hn & Hfrom).
  split; [|split].
  - eapply Forall_impl; [|exact Hfrom].
    intros call (s & t & Hs & Hcall). apply availableServices_In in Hs.
    exists s, t. tauto.
  - apply (f_equal (@List.length jsstring)) in Hn.
    rewrite length_map, length_firstn, length_map in Hn.
    rewrite (Permutation_length (availableServices_perm (this m))) in Hn.
    pose proof (filter_length_le
                  (fun s => enabled s
                            && negb (StringSet.has (failedServices (this m)) (name s)))
                  (services (this m))).
    lia.
  - intros Hnd. rewrite Hn. apply NoDup_firstn, availableServices_NoDup, Hnd.
Qed.

Lemma only_available_services_called_witness :
  let m0 := Example.machine Example.failing_service in
  let m := snd (translateText (js "hello") (js "en") (js "uk") m0) in
  let calls := [(js "LibreTranslate", Rejected (js "Apertium failed: HTTP error: 500"));
                (js "Apertium", Rejected (js "Apertium failed: HTTP error: 500"))] in
  (List.length calls <= List.length (services (this m)))%nat
  /\ NoDup (map fst calls).
Proof.
  cbn zeta.
  destruct (only_available_services_called
              (js "good morning") (js "en") (js "uk")
              (snd (translateText (js "hello") (js "en") (js "uk")
                                  (Example.machine Example.failing_service)))
              [(js "LibreTranslate", Rejected (js "Apertium failed: HTTP error: 500"));
               (js "Apertium", Rejected (js "Apertium failed: HTTP error: 500"))])
    as (_ & Hlen & Hnd).
  - vm_compute. reflexivity.
  - split; [exact Hlen|]. apply Hnd.
    vm_compute. repeat constructor; cbn; intuition discriminate.
Defined.



(** ** Successes, with and without a text *)





(** ** Reset and status *)

Lemma resetFailedServices_spec m :
  resetFailedServices m
  = (Normal tt,
     logged (entry_now INFO (js "Скинуто список невдалих сервісів") None NoDetails
                       {| this := with_failedServices StringSet.clear (this m);
                          world := world m |})
            {| this := with_failedServices StringSet.clear (this m);
               world := world m |}).
Proof.
  unfold resetFailedServices, bind, set_this. rewrite log_spec. reflexivity.
Qed.

(** X4. [resetFailedServices] empties [failedServices] and appends one INFO
    entry; afterwards the candidate list holds every enabled service, the ones
    that were marked failed included, and [getServiceStatus] reports no
    service as failed. *)
Theorem reset_restores_candidates m :
  let run := resetFailedServices m in
  fst run = Normal tt
  /\ failedServices (this (snd run)) = []
  /\ services (this (snd run)) = services (this m)
  /\ (exists e,
        headline e = (INFO, None)
        /\ rendered (world (snd run)) = rendered (world m) ++ [e]
        /\ logs (this (snd run)) = push_bounded (maxLogSize (this m)) e (logs (this m)))
  /\ (forall s, In s (availableServices (this (snd run)))
                <-> In s (services (this m)) /\ enabled s = true)
  /\ Forall (fun status => Status.failed status = false)
            (getServiceStatus (this (snd run))).
Proof.
  cbn zeta. rewrite resetFailedServices_spec. cbn [fst snd].
  split; [reflexivity|]. split; [reflexivity|]. split; [reflexivity|].
  split; [|split].
  - exists (entry_now INFO (js "Скинуто список невдалих сервісів") None NoDetails
                      {| this := with_failedServices StringSet.clear (this m);
                         world := world m |}).
    split; [|split]; reflexivity.
  - intros s. rewrite availableServices_In. cbn. tauto.
  - unfold getServiceStatus. apply Forall_forall. intros status Hin.
    apply in_map_iff in Hin. destruct Hin as (s & <- & _). reflexivity.
Qed.

(** X5. Across a call of [translateText] the status list keeps its services,
    in the same order with the same names, enabled flags and priorities; a
    failed flag that was set stays set. *)
Theorem status_across_a_call text sourceLang targetLang m :
  let before := getServiceStatus (this m) in
  let after := getServiceStatus (this (snd (translateText text sourceLang targetLang m))) in
  Forall2 (fun b a =>
             Status.name a = Status.name b
             /\ Status.enabled a = Status.enabled b
             /\ Status.priority a = Status.priority b
             /\ (Status.failed b = true -> Status.failed a = true))
          before after.
Proof.
  cbn zeta. unfold getServiceStatus.
  destruct (translateText_effects text sourceLang targetLang m)
    as (calls & entries & Hi & _ & Hs & _ & _ & _).
  cbn zeta in *. rewrite Hs.
  pose proof (marks_kept text sourceLang targetLang m) as Hsticky.
  clear Hi Hs. generalize (services (this m)). intros l.
  induction l as [|s l IH]; cbn [map]; constructor; [|exact IH].
  cbn. repeat split. apply Hsticky.
Qed.

(** ** The log as a window on what was appended *)

Lemma push_bounded_window size e l :
  (List.length l <= size)%nat ->
  push_bounded (Z.of_nat size) e l
  = skipn (List.length (l ++ [e]) - size) (l ++ [e]).
Proof.
  intros H. unfold push_bounded, array_length. rewrite length_app. cbn [List.length].
  destruct (Z.of_nat size <? Z.of_nat (List.length l + 1)) eqn:E.
  - apply Z.ltb_lt in E.
    replace (List.length l + 1 - size)%nat with 1%nat by lia. reflexivity.
  - apply Z.ltb_ge in E.
    replace (List.length l + 1 - size)%nat with 0%nat by lia. reflexivity.
Qed.

Lemma skipn_app_front {A} b (x y : list A) :
  (b <= List.length x)%nat -> skipn b x ++ y = skipn b (x ++ y).
Proof.
  intros H. rewrite skipn_app.
  replace (b - List.length x)%nat with 0%nat by lia. reflexivity.
Qed.

Lemma push_all_window size es : forall l,
  (List.length l <= size)%nat ->
  push_all (Z.of_nat size) es l = skipn (List.length (l ++ es) - size) (l ++ es).
Proof.
  induction es as [|e es IH]; intros l H.
  - cbn. rewrite app_nil_r. replace (List.length l - size)%nat with 0%nat by lia.
    reflexivity.
  - change (push_all (Z.of_nat size) (e :: es) l)
      with (push_all (Z.of_nat size) es (push_bounded (Z.of_nat size) e l)).
    rewrite (push_bounded_window size e l H).
    set (b := (List.length (l ++ [e]) - size)%nat).
    assert (Hb : (b <= List.length (l ++ [e]))%nat) by (unfold b; lia).
    rewrite IH by (rewrite length_skipn; unfold b; lia).
    rewrite (skipn_app_front b (l ++ [e]) es Hb).
    rewrite skipn_skipn, <- app_assoc. cbn [app].
    f_equal. rewrite length_skipn. subst b. clear Hb.
    rewrite !length_app. cbn [List.length]. lia.
Qed.

(** X6. The log is a window on the entries appended: after a call of
    [translateText] it holds, in order, the last [maxLogSize] of the entries
    it held before followed by the entries the call handed to the UI hook. *)
Theorem log_keeps_latest text sourceLang targetLang m :
  0 <= maxLogSize (this m) ->
  Z.of_nat (List.length (logs (this m))) <= maxLogSize (this m) ->
  let m' := snd (translateText text sourceLang targetLang m) in
  exists entries,
    rendered (world m') = rendered (world m) ++ entries
    /\ logs (this m')
       = skipn (List.length (logs (this m) ++ entries) - Z.to_nat (maxLogSize (this m)))
               (logs (this m) ++ entries).
Proof.
  intros Hsize Hlen. cbn zeta.
  destruct (translateText_effects text sourceLang targetLang m)
    as (calls & entries & _ & Hr & _ & _ & Hl & _).
  cbn zeta in *. exists entries. split; [exact Hr|].
  rewrite Hl. rewrite <- (Z2Nat.id (maxLogSize (this m)) Hsize) at 1.
  apply push_all_window. lia.
Qed.

Lemma log_keeps_latest_witness :
  let m := Example.machine Example.full_service in
  let m' := snd (translateText (js "hello") (js "en") (js "uk") m) in
  exists entries,
    rendered (world m') = rendered (world m) ++ entries
    /\ logs (this m')
       = skipn (List.length (logs (this m) ++ entries) - Z.to_nat (maxLogSize (this m)))
               (logs (this m) ++ entries).
Proof.
  apply (log_keeps_latest (js "hello") (js "en") (js "uk")
                          (Example.machine Example.full_service)).
  - vm_compute. discriminate.
  - apply Z.leb_le. vm_compute. reflexivity.
Defined.

(** * Further properties of the backup dictionary *)

Lemma tokens_start s :
  RegExp.isWordAt (hd_error s) = false -> starts_with_word (tokens s) = false.
Proof.
  destruct s as [|c s]; cbn; [reflexivity|]. intros H. rewrite H. reflexivity.
Qed.

Lemma tokens_word_app w : forall s,
  w <> [] -> forallb RegExp.isWordChar w = true ->
  starts_with_word (tokens s) = false ->
  tokens (w ++ s) = Word w :: tokens s.
Proof.
  induction w as [|c w IH]; intros s Hne Hw Hs; [congruence|].
  cbn in Hw. apply andb_prop in Hw. destruct Hw as [Hc Hw].
  cbn [app tokens]. rewrite Hc.
  destruct w as [|c' w].
  - cbn [app]. destruct (tokens s) as [|[w'|d] rest]; try reflexivity.
    discriminate.
  - rewrite (IH s) by (auto; discriminate). reflexivity.
Qed.

Lemma tokens_untokens ts : wf ts -> tokens (untokens ts) = ts.
Proof.
  induction ts as [|[w|c] rest IH]; intros Hwf.
  - reflexivity.
  - destruct Hwf as (Hne & Hw & Hs & Hrest).
    change (untokens (Word w :: rest)) with (w ++ untokens rest).
    rewrite tokens_word_app;
      [rewrite (IH Hrest); reflexivity | exact Hne | exact Hw
       | rewrite (IH Hrest); exact Hs].
  - destruct Hwf as (Hc & Hrest).
    change (untokens (Other c :: rest)) with (c :: untokens rest).
    cbn [tokens]. rewrite Hc, (IH Hrest). reflexivity.
Qed.

Lemma tokens_others_app v s :
  forallb (fun c => negb (RegExp.isWordChar c)) v = true ->
  tokens (v ++ s) = map Other v ++ tokens s.
Proof.
  induction v as [|c v IH]; intros H; cbn in *; [reflexivity|].
  apply andb_prop in H. destruct H as [Hc Hv].
  apply negb_true_iff in Hc. rewrite Hc, (IH Hv). reflexivity.
Qed.

Lemma tokens_split a : forall c b,
  RegExp.isWordChar c = false ->
  tokens (a ++ c :: b) = tokens a ++ Other c :: tokens b.
Proof.
  induction a as [|x a IH]; intros c b Hc; cbn [app tokens].
  - rewrite Hc. reflexivity.
  - rewrite (IH c b Hc). destruct (RegExp.isWordChar x); [|reflexivity].
    destruct (tokens a) as [|[w|d] rest]; reflexivity.
Qed.

Lemma subst_words k v ts w :
  In (Word w) (flat_map (subst_token k v) ts) ->
  In (Word w) ts /\ jsstring_eqb (map lower w) k = false.
Proof.
  induction ts as [|[w'|c] rest IH]; cbn [flat_map]; intros H; [contradiction| |].
  - apply in_app_or in H. destruct H as [H|H].
    + cbn in H. destruct (jsstring_eqb (map lower w') k) eqn:E.
      * apply in_map_iff in H. destruct H as (x & Hx & _). discriminate.
      * destruct H as [H|[]]. inversion H; subst. split; [left; reflexivity | exact E].
    + destruct (IH H). split; [right|]; assumption.
  - destruct H as [H|H]; [discriminate|].
    destruct (IH H). split; [right|]; assumption.
Qed.

Lemma subst_all_words dict : forall ts w,
  In (Word w) (subst_all dict ts) ->
  In (Word w) ts
  /\ forall kv, In kv dict -> jsstring_eqb (map lower w) (fst kv) = false.
Proof.
  induction dict as [|[k v] d IH]; intros ts w H.
  - split; [exact H | contradiction].
  - cbn in H. fold (subst_all d) in H. apply IH in H. destruct H as [H Hd].
    apply subst_words in H. destruct H as [H Hk].
    split; [exact H|]. intros kv [<-|Hin]; [exact Hk | apply Hd, Hin].
Qed.

Lemma substitute_subst_all dict :
  forallb plain_entry dict = true ->
  forall ts, wf ts ->
    substitute dict (untokens ts) = untokens (subst_all dict ts)
    /\ wf (subst_all dict ts).
Proof.
  unfold substitute, subst_all.
  induction dict as [|[k v] d IH]; intros Hd ts Hwf; [split; [reflexivity | exact Hwf]|].
  cbn [forallb] in Hd. apply andb_prop in Hd. destruct Hd as [Hkv Hd].
  unfold plain_entry in Hkv. cbn [fst snd] in Hkv.
  apply andb_prop in Hkv. destruct Hkv as [Hkv Hv].
  apply andb_prop in Hkv. destruct Hkv as [Hne Hk].
  assert (Hne' : k <> []) by (destruct k; [discriminate | congruence]).
  assert (Hv' : forallb (fun c => negb (RegExp.isWordChar c)) v = true).
  { rewrite forallb_forall in *. intros c Hc. specialize (Hv c Hc).
    apply andb_prop in Hv. apply Hv. }
  cbn [fold_left fst snd]. unfold RegExp.replace at 2.
  rewrite (replace_scan_tokens k v Hk Hne' ts Hwf None (fun _ => eq_refl)).
  apply (IH Hd). apply wf_subst; assumption.
Qed.

Lemma no_key_words dict ts :
  (forall w, In (Word w) ts ->
             forall kv, In kv dict -> jsstring_eqb (map lower w) (fst kv) = false) ->
  flat_map (fun t => match t with
                     | Word w => match lookup dict w with
                                 | Some _ => [w]
                                 | None => []
                                 end
                     | Other _ => []
                     end) ts = [].
Proof.
  induction ts as [|[w|c] rest IH]; intros H; cbn [flat_map]; [reflexivity| |].
  - assert (Hw : lookup dict w = None).
    { unfold lookup.
      destruct (find (fun kv => jsstring_eqb (map lower w) (fst kv)) dict) as [kv|] eqn:E;
        [|reflexivity].
      apply find_some in E. destruct E as [Hin E].
      rewrite (H w (or_introl eq_refl) kv Hin) in E. discriminate. }
    rewrite Hw. cbn. apply IH. intros w' Hin. apply H. right. exact Hin.
  - cbn. apply IH. intros w' Hin. apply H. right. exact Hin.
Qed.

Lemma substitute_leaves_no_key dict text :
  forallb plain_entry dict = true ->
  key_words dict (substitute dict text) = [].
Proof.
  intros Hd. rewrite <- (untokens_tokens text) at 1.
  destruct (substitute_subst_all dict Hd (tokens text) (wf_tokens text)) as [Heq Hwf].
  rewrite Heq. unfold key_words. rewrite (tokens_untokens _ Hwf).
  apply no_key_words. intros w Hin. apply (subst_all_words dict _ _ Hin).
Qed.

Lemma substitute_without_keys dict text :
  forallb plain_entry dict = true ->
  key_words dict text = [] -> substitute dict text = text.
Proof.
  intros Hd Hk. rewrite (substitute_whole_words _ _ Hd).
  unfold whole_word_substitution.
  rewrite (translate_no_keys _ _ Hk). apply untokens_tokens.
Qed.

Lemma key_words_others_app dict v s :
  forallb (fun c => negb (RegExp.isWordChar c)) v = true ->
  key_words dict (v ++ s) = key_words dict s.
Proof.
  intros Hv. unfold key_words. rewrite (tokens_others_app _ _ Hv), flat_map_app.
  assert (H : forall l, flat_map (fun t => match t with
                                            | Word w => match lookup dict w with
                                                        | Some _ => [w]
                                                        | None => []
                                                        end
                                            | Other _ => []
                                            end) (map Other l) = []).
  { induction l; cbn; auto. }
  rewrite H. reflexivity.
Qed.

(** X7. The substitution of the backup dictionary leaves no whole word that
    is a key, so that applying it to its own output changes nothing; the
    backup translation of a backup translation is the same text with the
    marker once more in front. *)
Theorem backup_is_idempotent text :
  let out := substitute backupDict text in
  key_words backupDict out = []
  /\ substitute backupDict out = out
  /\ (forall m m',
        fst (useBackupTranslation (backupMarker ++ out) m')
        = Normal {| Result.success := true;
                    Result.text := Str (backupMarker ++ backupMarker ++ out);
                    Result.service := Some (js "BackupDictionary") |}
        /\ fst (useBackupTranslation text m) = Normal (backup_result text)).
Proof.
  cbn zeta.
  pose proof (substitute_leaves_no_key backupDict text backupDict_plain) as Hk.
  split; [exact Hk|]. split.
  - apply (substitute_without_keys _ _ backupDict_plain Hk).
  - intros m m'. rewrite !useBackupTranslation_spec. cbn [fst]. split; [|reflexivity].
    unfold backup_result. rewrite (substitute_without_keys _ _ backupDict_plain);
      [reflexivity|].
    rewrite key_words_others_app; [exact Hk | vm_compute; reflexivity].
Qed.

(** X8. The substitution works word by word: a character that is not a word
    character splits the text, and each side is translated on its own. *)
Theorem substitution_is_word_local a c b :
  RegExp.isWordChar c = false ->
  substitute backupDict (a ++ c :: b)
  = substitute backupDict a ++ c :: substitute backupDict b.
Proof.
  intros Hc. rewrite !(substitute_whole_words _ _ backupDict_plain).
  unfold whole_word_substitution.
  rewrite (tokens_split a c b Hc), flat_map_app. reflexivity.
Qed.

Lemma substitution_is_word_local_witness :
  substitute backupDict (js "hello" ++ 44 :: js " world")
  = substitute backupDict (js "hello") ++ 44 :: substitute backupDict (js " world").
Proof.
  apply (substitution_is_word_local (js "hello") 44 (js " world")). reflexivity.
Defined.

Lemma lower_word c p : lower c = p -> isLowerLetter p = true -> RegExp.isWordChar c = true.
Proof.
  unfold lower, isLowerLetter, RegExp.isWordChar. intros H Hp.
  destruct ((65 <=? c) && (c <=? 90)) eqn:E; lia.
Qed.

Lemma lower_words w : forallb isLowerLetter (map lower w) = true ->
  forallb RegExp.isWordChar w = true.
Proof.
  induction w as [|c w IH]; cbn; intros H; [reflexivity|].
  apply andb_prop in H. destruct H as [Hc Hw].
  rewrite (lower_word c _ eq_refl Hc), (IH Hw). reflexivity.
Qed.

Lemma find_unique_key (dict : list (jsstring * jsstring)) k v :
  NoDup (map fst dict) -> In (k, v) dict ->
  find (fun kv => jsstring_eqb k (fst kv)) dict = Some (k, v).
Proof.
  induction dict as [|[k' v'] d IH]; intros Hnd Hin; [contradiction|].
  cbn in Hnd. inversion Hnd as [|x l Hx Hl]; subst. cbn [find fst].
  destruct Hin as [Heq|Hin].
  - inversion Heq; subst. rewrite jsstring_eqb_refl. reflexivity.
  - destruct (jsstring_eqb k k') eqn:E.
    + apply jsstring_eqb_eq in E. subst k'. exfalso. apply Hx.
      apply in_map_iff. exists (k, v). auto.
    + apply IH; assumption.
Qed.

Lemma backupDict_keys_unique : NoDup (map fst backupDict).
Proof.
  apply (NoDup_count_occ' (list_eq_dec Z.eq_dec)).
  intros x Hin. vm_compute in Hin.
  repeat (destruct Hin as [<-|Hin]; [vm_compute; reflexivity|]). contradiction.
Qed.

(** X9. Every key of the dictionary, written in any mix of upper and lower
    case and standing alone, is translated to the value the table gives it:
    no entry is shadowed by another. *)
Theorem every_key_translates k v w :
  In (k, v) backupDict -> map lower w = k -> substitute backupDict w = v.
Proof.
  intros Hin Hw.
  assert (Hplain : plain_entry (k, v) = true).
  { pose proof backupDict_plain as H. rewrite forallb_forall in H. apply H, Hin. }
  unfold plain_entry in Hplain. cbn [fst snd] in Hplain.
  apply andb_prop in Hplain. destruct Hplain as [Hplain _].
  apply andb_prop in Hplain. destruct Hplain as [Hne Hk].
  assert (Hne' : w <> []).
  { intros ->. cbn in Hw. subst k. discriminate. }
  assert (Hword : forallb RegExp.isWordChar w = true).
  { apply lower_words. rewrite Hw. exact Hk. }
  rewrite (substitute_whole_words _ _ backupDict_plain).
  unfold whole_word_substitution.
  rewrite <- (app_nil_r w) at 1. rewrite tokens_word_app by auto.
  cbn [tokens flat_map translate_token]. unfold lookup. rewrite Hw.
  rewrite (find_unique_key _ _ _ backupDict_keys_unique Hin). cbn [option_map snd].
  apply app_nil_r.
Qed.

Lemma every_key_translates_witness :
  substitute backupDict (js "BeCause") = js "тому що".
Proof.
  apply (every_key_translates (js "because") (js "тому що") (js "BeCause")).
  - vm_compute. do 33 right. left. reflexivity.
  - vm_compute. reflexivity.
Defined.


(** * Properties of the adapters *)

Module UriFacts.
Import URI.

Lemma encode_total malformed n : forall s,
  (List.length s <= n)%nat ->
  (wellFormed s = true -> exists q, encodeURIComponent malformed s = Value q)
  /\ (wellFormed s = false -> encodeURIComponent malformed s = Raise malformed).
Proof.
  induction n as [|n IH]; intros s Hlen.
  - destruct s; [|cbn in Hlen; lia]. cbn. split; [eauto | discriminate].
  - destruct s as [|c rest]; [cbn; split; [eauto | discriminate]|].
    cbn in Hlen. cbn [wellFormed encodeURIComponent].
    assert (Hrest := IH rest ltac:(lia)).
    destruct (unescaped c) eqn:Eu.
    + assert (Hc : isLead c = false /\ isTrail c = false).
      { unfold unescaped, isLead, isTrail in *. cbn [existsb] in Eu. lia. }
      destruct Hc as [Hl Ht]. rewrite Hl, Ht. cbn [negb andb].
      destruct Hrest as [H1 H2]. split; intros H.
      * destruct (H1 H) as [q ->]. cbn. eauto.
      * rewrite (H2 H). reflexivity.
    + destruct (isLead c) eqn:El.
      * destruct rest as [|d rest']; [split; [discriminate | reflexivity]|].
        cbn in Hlen. assert (Hrest' := IH rest' ltac:(lia)).
        destruct (isTrail d); cbn [andb]; [|split; [discriminate | reflexivity]].
        destruct Hrest' as [H1 H2]. split; intros H.
        -- destruct (H1 H) as [q ->]. cbn. eauto.
        -- rewrite (H2 H). reflexivity.
      * destruct (isTrail c); cbn [negb andb]; [split; [discriminate | reflexivity]|].
        destruct Hrest as [H1 H2]. split; intros H.
        -- destruct (H1 H) as [q ->]. cbn. eauto.
        -- rewrite (H2 H). reflexivity.
Qed.

Lemma encode_wellFormed malformed s :
  wellFormed s = true -> exists q, encodeURIComponent malformed s = Value q.
Proof. apply (encode_total malformed (List.length s) s (le_n _)). Qed.







End UriFacts.



Lemma starts_with_app p s : starts_with p (p ++ s) = true.
Proof.
  induction p as [|a p IH]; cbn; [reflexivity|]. rewrite Z.eqb_refl. exact IH.
Qed.

Lemma statusCodes_In status : 0 <= status < 1000 -> In status statusCodes.
Proof.
  intros H. unfold statusCodes. apply in_map_iff.
  exists (Z.to_nat status). split; [lia|]. apply in_seq. lia.
Qed.

Lemma http_errors_not_rate_limited :
  forallb (fun status =>
             (status =? 429)
             || forallb (fun service =>
                           negb (rate_limited (service ++ js " failed: "
                                               ++ js "HTTP error: "
                                               ++ number_to_string status)))
                        [js "MyMemory"; js "LibreTranslate"; js "Apertium";
                         js "GoogleTranslate"])
          statusCodes = true.
Proof. vm_compute. reflexivity. Qed.

Section AdapterFacts.

Variable Number : Type.
Variable number_equals : Number -> Z -> bool.
Variable number_truthy : Number -> bool.
Variable number_toString : Number -> jsstring.
Variable fetch : Request -> nat -> FetchOutcome Number.
Variable typeErrorMessage : JSValue Number -> jsstring -> jsstring.
Variable uriErrorMessage : jsstring.
Variable convertErrorMessage : jsstring.

Let myMemory :=
  translateMyMemory number_equals number_toString fetch typeErrorMessage
                    uriErrorMessage convertErrorMessage.
Let libreTranslate := translateLibreTranslate number_truthy fetch typeErrorMessage.
Let apertium := translateApertium number_truthy fetch typeErrorMessage uriErrorMessage.
Let googleAPI := translateGoogleAPI number_truthy fetch typeErrorMessage uriErrorMessage.

Lemma fetch_ok_429 request moment body :
  fetch request moment = Responded 429 body ->
  fetch_ok fetch request moment = Raise (js "429 - Rate limit exceeded").
Proof. intros H. unfold fetch_ok. rewrite H. reflexivity. Qed.

Lemma fetch_ok_error request moment status body :
  fetch request moment = Responded status body ->
  status <> 429 -> status < 200 \/ 299 < status ->
  fetch_ok fetch request moment = Raise (js "HTTP error: " ++ number_to_string status).
Proof.
  intros H H429 Hok. unfold fetch_ok. rewrite H.
  destruct (status =? 429) eqn:E; [apply Z.eqb_eq in E; contradiction|].
  destruct ((200 <=? status) && (status <=? 299)) eqn:E'; [lia | reflexivity].
Qed.

Lemma adapters_reject_429 text sourceLang targetLang moment :
  (forall request, exists body, fetch request moment = Responded 429 body) ->
  let message service := service ++ js " failed: " ++ js "429 - Rate limit exceeded" in
  libreTranslate text sourceLang targetLang moment
  = RawRejected (message (js "LibreTranslate"))
  /\ (URI.wellFormed text = true ->
      myMemory text sourceLang targetLang moment = RawRejected (message (js "MyMemory"))
      /\ apertium text sourceLang targetLang moment
         = RawRejected (message (js "Apertium"))
      /\ googleAPI text sourceLang targetLang moment
         = RawRejected (message (js "GoogleTranslate"))).
Proof.
  intros Hnet. cbn zeta.
  assert (Hfetch : forall request,
             fetch_ok fetch request moment = Raise (js "429 - Rate limit exceeded")).
  { intros request. destruct (Hnet request) as [body H]. exact (fetch_ok_429 _ _ _ H). }
  split.
  - unfold libreTranslate, translateLibreTranslate. rewrite Hfetch. reflexivity.
  - intros Hwf. destruct (UriFacts.encode_wellFormed uriErrorMessage text Hwf) as [q Hq].
    unfold myMemory, apertium, googleAPI, translateMyMemory, translateApertium,
      translateGoogleAPI.
    rewrite Hq. cbn [bindT]. rewrite !Hfetch. repeat split.
Qed.

(** X10. When the remote service answers with status 429, each adapter is
    rejected with an error made of the name of its service and the text
    429 - Rate limit exceeded, which the test of [translateText] for a rate
    limit recognises; the three adapters that put the text in the URL need it
    free of unpaired surrogates. *)
Theorem adapters_report_rate_limit text sourceLang targetLang moment :
  (forall request, exists body, fetch request moment = Responded 429 body) ->
  let message service := service ++ js " failed: " ++ js "429 - Rate limit exceeded" in
  libreTranslate text sourceLang targetLang moment
  = RawRejected (message (js "LibreTranslate"))
  /\ (URI.wellFormed text = true ->
      myMemory text sourceLang targetLang moment = RawRejected (message (js "MyMemory"))
      /\ apertium text sourceLang targetLang moment
         = RawRejected (message (js "Apertium"))
      /\ googleAPI text sourceLang targetLang moment
         = RawRejected (message (js "GoogleTranslate")))
  /\ Forall (fun service => rate_limited (message service) = true)
            [js "MyMemory"; js "LibreTranslate"; js "Apertium"; js "GoogleTranslate"].
Proof.
  intros Hnet. cbn zeta.
  assert (Hfetch : forall request,
             fetch_ok fetch request moment = Raise (js "429 - Rate limit exceeded")).
  { intros request. destruct (Hnet request) as [body H]. exact (fetch_ok_429 _ _ _ H). }
  split; [|split].
  - unfold libreTranslate, translateLibreTranslate. rewrite Hfetch. reflexivity.
  - intros Hwf. destruct (UriFacts.encode_wellFormed uriErrorMessage text Hwf) as [q Hq].
    unfold myMemory, apertium, googleAPI, translateMyMemory, translateApertium,
      translateGoogleAPI.
    rewrite Hq. cbn [bindT]. rewrite !Hfetch. repeat split.
  - repeat constructor; vm_compute; reflexivity.
Qed.

(** X11. When the remote service answers with another status outside 200 to
    299, each adapter is rejected with the name of its service and
    HTTP error: followed by the status, and for a status of at most three
    digits that message is not taken for a rate limit: the service stays a
    candidate. *)
Theorem http_errors_keep_the_service text sourceLang targetLang moment status :
  (forall request, exists body, fetch request moment = Responded status body) ->
  0 <= status < 1000 -> status <> 429 -> status < 200 \/ 299 < status ->
  let message service :=
    service ++ js " failed: " ++ js "HTTP error: " ++ number_to_string status in
  libreTranslate text sourceLang targetLang moment
  = RawRejected (message (js "LibreTranslate"))
  /\ (URI.wellFormed text = true ->
      myMemory text sourceLang targetLang moment = RawRejected (message (js "MyMemory"))
      /\ apertium text sourceLang targetLang moment
         = RawRejected (message (js "Apertium"))
      /\ googleAPI text sourceLang targetLang moment
         = RawRejected (message (js "GoogleTranslate")))
  /\ Forall (fun service => rate_limited (message service) = false)
            [js "MyMemory"; js "LibreTranslate"; js "Apertium"; js "GoogleTranslate"].
Proof.
  intros Hnet Hrange H429 Hok. cbn zeta.
  assert (Hfetch : forall request,
             fetch_ok fetch request moment
             = Raise (js "HTTP error: " ++ number_to_string status)).
  { intros request. destruct (Hnet request) as [body H].
    exact (fetch_ok_error _ _ _ _ H H429 Hok). }
  split; [|split].
  - unfold libreTranslate, translateLibreTranslate. rewrite Hfetch. reflexivity.
  - intros Hwf. destruct (UriFacts.encode_wellFormed uriErrorMessage text Hwf) as [q Hq].
    unfold myMemory, apertium, googleAPI, translateMyMemory, translateApertium,
      translateGoogleAPI.
    rewrite Hq. cbn [bindT]. rewrite !Hfetch. repeat split.
  - pose proof http_errors_not_rate_limited as Hall.
    rewrite forallb_forall in Hall. specialize (Hall status (statusCodes_In _ Hrange)).
    destruct (status =? 429) eqn:E; [apply Z.eqb_eq in E; contradiction|].
    cbn [orb] in Hall. rewrite forallb_forall in Hall.
    apply Forall_forall. intros service Hin.
    apply negb_true_iff. apply Hall. exact Hin.
Qed.


Lemma rethrow_shape service (body : Try (RawResult Number)) (P : RawResult Number -> Prop) :
  (forall result, body = Value result -> P result) ->
  match rethrow service body with
  | RawFulfilled result => P result
  | RawRejected message => starts_with (service ++ js " failed: ") message = true
  end.
Proof.
  intros H. destruct body as [result|message]; cbn.
  - apply H. reflexivity.
  - rewrite app_assoc. apply starts_with_app.
Qed.

Lemma rethrow_returns service (body : Try (RawResult Number))
      (P : RawResult Number -> Prop) :
  (forall result, body = Value result -> P result) ->
  match rethrow service body with
  | RawFulfilled result => P result
  | RawRejected _ => True
  end.
Proof.
  intros H. destruct body as [result|message]; cbn; [apply H; reflexivity | exact I].
Qed.

Ltac crunch :=
  repeat (cbn [bindT] in *;
          match goal with
          | H : bindT ?c _ = Value _ |- _ => destruct c eqn:?; [|discriminate H]
          | H : (if ?b then _ else _) = Value _ |- _ => destruct b eqn:?
          | H : Raise _ = Value _ |- _ => discriminate H
          | H : Value _ = Value _ |- _ => inversion H; subst; clear H
          end).

Ltac unfold_try H :=
  cbn zeta in H;
  repeat (cbn [bindT] in H;
          match type of H with
          | bindT ?c _ = Value _ => destruct c eqn:?; [|discriminate H]
          | (if ?b then _ else _) = Value _ => destruct b eqn:?
          | Raise _ = Value _ => discriminate H
          end).

(** X13. An adapter never settles with a result that is not a success: it
    returns an object with [success: true] and the name of its service, or
    throws an error whose message begins with that name and failed.  The
    adapters of LibreTranslate, Apertium and Google return a text only when
    it is truthy, so never an empty string. *)
Theorem adapters_succeed_or_throw text sourceLang targetLang moment :
  Forall (fun named : jsstring * RawOutcome Number =>
            match snd named with
            | RawFulfilled result =>
              raw_success result = true /\ raw_service result = fst named
            | RawRejected message =>
              starts_with (fst named ++ js " failed: ") message = true
            end)
         [(js "MyMemory", myMemory text sourceLang targetLang moment);
          (js "LibreTranslate", libreTranslate text sourceLang targetLang moment);
          (js "Apertium", apertium text sourceLang targetLang moment);
          (js "GoogleTranslate", googleAPI text sourceLang targetLang moment)]
  /\ Forall (fun outcome : RawOutcome Number =>
               match outcome with
               | RawFulfilled result =>
                 truthy number_truthy (raw_text result) = true
                 /\ raw_text result <> JString []
               | RawRejected _ => True
               end)
            [libreTranslate text sourceLang targetLang moment;
             apertium text sourceLang targetLang moment;
             googleAPI text sourceLang targetLang moment].
Proof.
  assert (Hne : forall v : JSValue Number,
             truthy number_truthy v = true -> v <> JString []).
  { intros v Hv ->. discriminate. }
  split.
  - repeat constructor; cbn [fst snd];
      unfold myMemory, libreTranslate, apertium, googleAPI, translateMyMemory,
        translateLibreTranslate, translateApertium, translateGoogleAPI;
      apply rethrow_shape; intros result H; unfold_try H;
      inversion H; subst; split; reflexivity.
  - repeat constructor.
    + unfold libreTranslate, translateLibreTranslate.
      apply (rethrow_returns _ _ (fun result =>
               truthy number_truthy (raw_text result) = true
               /\ raw_text result <> JString [])).
      intros result H. unfold_try H. inversion H; subst. cbn [raw_text].
      clear H. split; [|apply Hne]; assumption.
    + unfold apertium, translateApertium.
      apply (rethrow_returns _ _ (fun result =>
               truthy number_truthy (raw_text result) = true
               /\ raw_text result <> JString [])).
      intros result H. cbn zeta in H. crunch; cbn [raw_text];
        (split; [|apply Hne]; first [assumption | congruence]).
    + unfold googleAPI, translateGoogleAPI.
      apply (rethrow_returns _ _ (fun result =>
               truthy number_truthy (raw_text result) = true
               /\ raw_text result <> JString [])).
      intros result H. cbn zeta in H. crunch; cbn [raw_text];
        (split; [|apply Hne]; first [assumption | congruence]).
Qed.

(** X15. With a body status of 200 the adapter of MyMemory returns whatever
    [responseData.translatedText] holds, without looking at it: a success
    with no text at all when the property is missing, where the three other
    adapters throw.
    With another numeric body status it throws API error: followed by the
    number, which counts as a rate limit when the number prints as 429. *)
Theorem myMemory_body_status text sourceLang targetLang moment status properties n :
  URI.wellFormed text = true ->
  (forall request, fetch request moment = Responded status (Parsed (JObject properties))) ->
  200 <= status <= 299 ->
  own properties (js "responseStatus") = JNumber n ->
  (number_equals n 200 = true ->
   forall responseData,
     own properties (js "responseData") = JObject responseData ->
     myMemory text sourceLang targetLang moment
     = RawFulfilled {| raw_success := true;
                       raw_text := own responseData (js "translatedText");
                       raw_service := js "MyMemory" |}
     /\ (own responseData (js "translatedText") = JUndefined ->
         typed (myMemory text sourceLang targetLang moment)
         = Some (Fulfilled {| Result.success := true; Result.text := Undefined;
                              Result.service := Some (js "MyMemory") |})))
  /\ (number_equals n 200 = false ->
      myMemory text sourceLang targetLang moment
      = RawRejected (js "MyMemory" ++ js " failed: " ++ js "API error: " ++ number_toString n)
      /\ (number_toString n = js "429" ->
          rate_limited (js "MyMemory" ++ js " failed: " ++ js "API error: "
                        ++ number_toString n) = true)).
Proof.
  intros Hwf Hnet Hok Hstatus.
  destruct (UriFacts.encode_wellFormed uriErrorMessage text Hwf) as [q Hq].
  assert (Hfetch : forall request,
             fetch_ok fetch request moment = Value (Parsed (JObject properties))).
  { intros request. unfold fetch_ok. rewrite Hnet.
    destruct (status =? 429) eqn:E; [lia|].
    destruct ((200 <=? status) && (status <=? 299)) eqn:E'; [reflexivity | lia]. }
  unfold myMemory, translateMyMemory. rewrite Hq. cbn [bindT].
  rewrite Hfetch. cbn [bindT response_json get_named]. rewrite Hstatus.
  cbn [strict_equals]. split; intros Hn; rewrite Hn.
  - intros responseData Hdata. rewrite Hdata. cbn [bindT get_named rethrow].
    split; [reflexivity|]. intros Hmissing. rewrite Hmissing. reflexivity.
  - cbn [bindT to_string rethrow]. split; [reflexivity|].
    intros Hprint. rewrite Hprint. vm_compute. reflexivity.
Qed.

End AdapterFacts.

(** The adapters on example networks. *)

Lemma adapters_report_rate_limit_witness :
  let network := ExampleNetwork.always 429 in
  translateLibreTranslate ExampleNetwork.number_truthy network
                          ExampleNetwork.typeErrorMessage
                          (js "hello") (js "en") (js "uk") 0
  = RawRejected (js "LibreTranslate" ++ js " failed: " ++ js "429 - Rate limit exceeded")
  /\ translateMyMemory ExampleNetwork.number_equals ExampleNetwork.number_toString
                       network ExampleNetwork.typeErrorMessage
                       ExampleNetwork.uriErrorMessage ExampleNetwork.convertErrorMessage
                       (js "hello") (js "en") (js "uk") 0
     = RawRejected (js "MyMemory" ++ js " failed: " ++ js "429 - Rate limit exceeded").
Proof.
  cbn zeta.
  pose proof (adapters_report_rate_limit
                Z ExampleNetwork.number_equals ExampleNetwork.number_truthy
                ExampleNetwork.number_toString (ExampleNetwork.always 429)
                ExampleNetwork.typeErrorMessage ExampleNetwork.uriErrorMessage
                ExampleNetwork.convertErrorMessage
                (js "hello") (js "en") (js "uk") 0%nat) as H.
  cbn zeta in H. destruct H as (Hlibre & Hget & _).
  - intros request. eexists. reflexivity.
  - split; [exact Hlibre|]. apply Hget. vm_compute. reflexivity.
Defined.

Lemma http_errors_keep_the_service_witness :
  let network := ExampleNetwork.always 500 in
  translateLibreTranslate ExampleNetwork.number_truthy network
                          ExampleNetwork.typeErrorMessage
                          (js "hello") (js "en") (js "uk") 0
  = RawRejected (js "LibreTranslate" ++ js " failed: " ++ js "HTTP error: "
                 ++ number_to_string 500)
  /\ rate_limited (js "LibreTranslate" ++ js " failed: " ++ js "HTTP error: "
                   ++ number_to_string 500) = false.
Proof.
  cbn zeta.
  pose proof (http_errors_keep_the_service
                Z ExampleNetwork.number_equals ExampleNetwork.number_truthy
                ExampleNetwork.number_toString (ExampleNetwork.always 500)
                ExampleNetwork.typeErrorMessage ExampleNetwork.uriErrorMessage
                ExampleNetwork.convertErrorMessage
                (js "hello") (js "en") (js "uk") 0%nat 500) as H.
  cbn zeta in H. destruct H as (Hlibre & _ & Hall).
  - intros request. eexists. reflexivity.
  - lia.
  - lia.
  - right. lia.
  - split; [exact Hlibre|].
    inversion Hall as [|x l _ Hrest]. inversion Hrest as [|y l' Hy _]. exact Hy.
Defined.


Lemma myMemory_body_status_witness :
  let properties : list (jsstring * JSValue Z) :=
    [(js "responseStatus", JNumber 200); (js "responseData", JObject [])] in
  typed (translateMyMemory ExampleNetwork.number_equals ExampleNetwork.number_toString
                           (ExampleNetwork.answering (JObject properties))
                           ExampleNetwork.typeErrorMessage
                           ExampleNetwork.uriErrorMessage
                           ExampleNetwork.convertErrorMessage
                           (js "hello") (js "en") (js "uk") 0)
  = Some (Fulfilled {| Result.success := true; Result.text := Undefined;
                       Result.service := Some (js "MyMemory") |}).
Proof.
  cbn zeta.
  pose proof (myMemory_body_status
                Z ExampleNetwork.number_equals ExampleNetwork.number_toString
                (ExampleNetwork.answering
                   (JObject [(js "responseStatus", JNumber 200);
                             (js "responseData", JObject [])]))
                ExampleNetwork.typeErrorMessage ExampleNetwork.uriErrorMessage
                ExampleNetwork.convertErrorMessage
                (js "hello") (js "en") (js "uk") 0%nat 200
                [(js "responseStatus", JNumber 200); (js "responseData", JObject [])]
                200) as H.
  destruct H as (Hok & _).
  - vm_compute. reflexivity.
  - intros request. reflexivity.
  - lia.
  - vm_compute. reflexivity.
  - destruct (Hok eq_refl [] eq_refl) as (_ & Hmissing).
    apply Hmissing. reflexivity.
Defined.

(** * The service when every candidate is rate limited *)

Lemma availableServices_ext o o' :
  services o = services o' -> failedServices o = failedServices o' ->
  availableServices o = availableServices o'.
Proof. intros Hs Hf. unfold availableServices. rewrite Hs, Hf. reflexivity. Qed.


Lemma offline_after_rate_limits text sourceLang targetLang m :
  NoDup (map name (services (this m))) ->
  blank text = false ->
  (forall s t, In s (availableServices (this m)) ->
               exists message,
                 translator s text sourceLang targetLang t = Rejected message
                 /\ rate_limited message = true) ->
  let run := translateText text sourceLang targetLang m in
  fst run = Normal (backup_result text)
  /\ (forall s, In s (availableServices (this m)) ->
                StringSet.has (failedServices (this (snd run))) (name s) = true)
  /\ availableServices (this (snd run)) = [].
Proof.
  intros Hnd Hb Hall. cbn zeta.
  pose proof (marks_kept text sourceLang targetLang m) as Hkept.
  destruct (translateText text sourceLang targetLang m) as [c m'] eqn:Hrun.
  cbn [fst snd] in *.
  destruct (translateText_trace _ _ _ _ _ _ Hrun Hb)
    as (calls & new_r & Hs & Hf & _ & _ & _ & _ & Hn & Hfrom & Hres).
  rewrite Forall_forall in Hfrom.
  assert (Hrej : forall call, In call calls ->
                   exists message, snd call = Rejected message
                                   /\ rate_limited message = true).
  { intros call Hin. destruct (Hfrom call Hin) as (s & t & Hs' & ->).
    destruct (Hall s t Hs') as (msg & Hmsg & Hrl). exists msg. cbn. auto. }
  destruct Hres as [(pre & n & r & Hcalls & Hsucc & _)|(_ & Hlen & Hc & _)].
  { exfalso. destruct (Hrej (n, Fulfilled r)) as (msg & Hmsg & _); [|discriminate].
    rewrite Hcalls. apply in_or_app. right. left. reflexivity. }
  assert (Hnames : map fst calls = map name (availableServices (this m))).
  { rewrite Hn. apply firstn_all2. rewrite length_map. lia. }
  assert (Hmarked : forall s, In s (availableServices (this m)) ->
                      StringSet.has (failedServices (this m')) (name s) = true).
  { intros s Hin. assert (Hin' : In (name s) (map fst calls)).
    { rewrite Hnames. apply in_map. exact Hin. }
    apply map_In_inv in Hin'. destruct Hin' as ([n o] & Hcall & Heq).
    cbn in Heq. subst n.
    destruct (Hrej _ Hcall) as (msg & Hmsg & Hrl). cbn in Hmsg. subst o.
    rewrite Hf. apply (tracks_rate_limited calls (name s) msg); auto.
    rewrite Hnames. apply availableServices_NoDup, Hnd. }
  split; [exact Hc|]. split; [exact Hmarked|].
  destruct (availableServices (this m')) as [|s rest] eqn:Eafter; [reflexivity|].
  exfalso.
  assert (Hs' : In s (availableServices (this m'))) by (rewrite Eafter; left; reflexivity).
  apply availableServices_In in Hs'. destruct Hs' as (Hin & Hen & Hhas).
  rewrite Hs in Hin.
  destruct (StringSet.has (failedServices (this m)) (name s)) eqn:Ebefore.
  - rewrite (Hkept _ Ebefore) in Hhas. discriminate.
  - rewrite Hmarked in Hhas; [discriminate|].
    apply availableServices_In. auto.
Qed.



Section Offline.

Variable Number : Type.
Variable number_equals : Number -> Z -> bool.
Variable number_truthy : Number -> bool.
Variable number_toString : Number -> jsstring.
Variable fetch : Request -> nat -> FetchOutcome Number.
Variable typeErrorMessage : JSValue Number -> jsstring -> jsstring.
Variable uriErrorMessage : jsstring.
Variable convertErrorMessage : jsstring.

(** X17. A service object built by the constructor on the four adapters,
    with no service marked, on a network that answers 429 to every request:
    a call on a well-formed text that is not blank returns the backup
    translation, marks all four services as failed and leaves no candidate. *)
Theorem rate_limited_network_goes_offline
        (tr1 tr2 tr3 tr4 : Translator) text sourceLang targetLang m :
  services (this m) = services (constructor tr1 tr2 tr3 tr4) ->
  failedServices (this m) = [] ->
  blank text = false ->
  URI.wellFormed text = true ->
  (forall request moment, exists body, fetch request moment = Responded 429 body) ->
  (forall moment,
     typed (translateMyMemory number_equals number_toString fetch typeErrorMessage
                              uriErrorMessage convertErrorMessage
                              text sourceLang targetLang moment)
     = Some (tr1 text sourceLang targetLang moment)) ->
  (forall moment,
     typed (translateLibreTranslate number_truthy fetch typeErrorMessage
                                    text sourceLang targetLang moment)
     = Some (tr2 text sourceLang targetLang moment)) ->
  (forall moment,
     typed (translateApertium number_truthy fetch typeErrorMessage uriErrorMessage
                              text sourceLang targetLang moment)
     = Some (tr3 text sourceLang targetLang moment)) ->
  (forall moment,
     typed (translateGoogleAPI number_truthy fetch typeErrorMessage uriErrorMessage
                               text sourceLang targetLang moment)
     = Some (tr4 text sourceLang targetLang moment)) ->
  let run := translateText text sourceLang targetLang m in
  fst run = Normal (backup_result text)
  /\ Forall (fun n => StringSet.has (failedServices (this (snd run))) n = true)
            [js "MyMemory"; js "LibreTranslate"; js "Apertium"; js "GoogleTranslate"]
  /\ availableServices (this (snd run)) = [].
Proof.
  intros Hs Hf Hb Hwf Hnet H1 H2 H3 H4. cbn zeta.
  assert (Hcands : availableServices (this m)
                   = services (constructor tr1 tr2 tr3 tr4)).
  { rewrite (availableServices_ext (this m) (constructor tr1 tr2 tr3 tr4) Hs Hf).
    reflexivity. }
  assert (Hrej : forall s t, In s (availableServices (this m)) ->
                   exists message,
                     translator s text sourceLang targetLang t = Rejected message
                     /\ rate_limited message = true).
  { intros s t Hin. rewrite Hcands in Hin.
    destruct (adapters_reject_429 Number number_equals number_truthy number_toString
                fetch typeErrorMessage uriErrorMessage convertErrorMessage
                text sourceLang targetLang t (fun request => Hnet request t))
      as (Hlibre & Hget).
    destruct (Hget Hwf) as (Hmy & Hap & Hgo).
    specialize (H1 t). specialize (H2 t). specialize (H3 t). specialize (H4 t).
    rewrite Hmy in H1. rewrite Hlibre in H2. rewrite Hap in H3. rewrite Hgo in H4.
    cbn [typed] in H1, H2, H3, H4.
    destruct Hin as [<-|[<-|[<-|[<-|[]]]]]; cbn [translator];
      eexists; (split; [symmetry; injection H1 as H1; injection H2 as H2;
                        injection H3 as H3; injection H4 as H4; eassumption
                       | vm_compute; reflexivity]). }
  assert (Hnd : NoDup (map name (services (this m)))).
  { rewrite Hs. vm_compute. repeat constructor; cbn; intuition discriminate. }
  destruct (offline_after_rate_limits text sourceLang targetLang m Hnd Hb Hrej)
    as (Hc & Hmarked & Hnone).
  cbn zeta in *. split; [exact Hc|]. split; [|exact Hnone].
  rewrite Hcands in Hmarked.
  change [js "MyMemory"; js "LibreTranslate"; js "Apertium"; js "GoogleTranslate"]
    with (map name (services (constructor tr1 tr2 tr3 tr4))).
  apply Forall_map, Forall_forall. exact Hmarked.
Qed.

End Offline.

Lemma rate_limited_network_goes_offline_witness :
  let limited service :=
    Example.rejecting (service ++ js " failed: " ++ js "429 - Rate limit exceeded") in
  let m := Example.machine
             (constructor (limited (js "MyMemory")) (limited (js "LibreTranslate"))
                          (limited (js "Apertium")) (limited (js "GoogleTranslate"))) in
  let run := translateText (js "hello") (js "en") (js "uk") m in
  fst run = Normal (backup_result (js "hello"))
  /\ Forall (fun n => StringSet.has (failedServices (this (snd run))) n = true)
            [js "MyMemory"; js "LibreTranslate"; js "Apertium"; js "GoogleTranslate"]
  /\ availableServices (this (snd run)) = [].
Proof.
  cbn zeta.
  apply (rate_limited_network_goes_offline
           Z ExampleNetwork.number_equals ExampleNetwork.number_truthy
           ExampleNetwork.number_toString (ExampleNetwork.always 429)
           ExampleNetwork.typeErrorMessage ExampleNetwork.uriErrorMessage
           ExampleNetwork.convertErrorMessage
           (Example.rejecting (js "MyMemory" ++ js " failed: "
                               ++ js "429 - Rate limit exceeded"))
           (Example.rejecting (js "LibreTranslate" ++ js " failed: "
                               ++ js "429 - Rate limit exceeded"))
           (Example.rejecting (js "Apertium" ++ js " failed: "
                               ++ js "429 - Rate limit exceeded"))
           (Example.rejecting (js "GoogleTranslate" ++ js " failed: "
                               ++ js "429 - Rate limit exceeded"))
           (js "hello") (js "en") (js "uk")).
  - reflexivity.
  - reflexivity.
  - vm_compute. reflexivity.
  - vm_compute. reflexivity.
  - intros request moment. eexists. reflexivity.
  - intros moment. vm_compute. reflexivity.
  - intros moment. vm_compute. reflexivity.
  - intros moment. vm_compute. reflexivity.
  - intros moment. vm_compute. reflexivity.
Defined.
